(** * A shallow embedding of go-trustless-utils

    The request model ([Request], [ByteRange], [DagScope]) with its selector
    synthesis, Etag and string forms; the HTTP query, content-type and URL
    path parsing with the [CheckFormat] negotiation; and
    the streaming CAR verifier of the [traversal] package with its custom
    block read-opener and error-capturing reader.

    Go's [int64] and [uint64] are [Z] with the wrap-around written out; a Go
    pointer is an [option] and a Go panic (a nil dereference) is [None] in
    the functions that dereference pointers. *)

From Stdlib Require Import ZArith List String Ascii Bool Lia.
From Stdlib Require Import Sorting.Sorted Sorting.Permutation.
Import ListNotations.
Open Scope string_scope.
Open Scope Z_scope.
Set Warnings "-register-all".

(* ------------------------------------------------------------------ *)
(** ** Machine integers *)

Definition two64 : Z := 2 ^ 64.
Definition MaxInt64 : Z := 2 ^ 63 - 1.
Definition MinInt64 : Z := - 2 ^ 63.

(** Two's complement wrap-around of an [int64] result. *)
Definition wrap64 (z : Z) : Z := (z + 2 ^ 63) mod two64 - 2 ^ 63.
(** Wrap-around of a [uint64] result. *)
Definition u64 (z : Z) : Z := z mod two64.

Definition in_int64 (z : Z) : Prop := MinInt64 <= z <= MaxInt64.

(* ------------------------------------------------------------------ *)
(** ** Bytes and strings *)

(** A byte is a [Z] in [0, 255]. *)
Definition bytes_of_string (s : string) : list Z :=
  map (fun a => Z.of_nat (nat_of_ascii a)) (list_ascii_of_string s).

Definition ascii_of_Z (z : Z) : ascii := ascii_of_nat (Z.to_nat z).

(** Digits of [strconv] ("0123456789abcdefghijklmnopqrstuvwxyz"). *)
Definition digit_char (d : Z) : ascii :=
  if d <? 10 then ascii_of_Z (48 + d) else ascii_of_Z (97 + d - 10).

(** [strconv.FormatUint] digit loop for a base [b >= 2]: most significant
    digit first, with [fuel] bounding the number of digits. *)
Fixpoint fmt_digits (b : Z) (fuel : nat) (n : Z) (acc : list ascii) : list ascii :=
  match fuel with
  | O => acc
  | S f =>
      if n <? b then digit_char n :: acc
      else fmt_digits b f (n / b) (digit_char (n mod b) :: acc)
  end.

(** [strconv.FormatUint(x, base)]; 64 digits suffice for a [uint64]. *)
Definition FormatUint (x : Z) (base : Z) : string :=
  string_of_list_ascii (fmt_digits base 64 x []).

(** [strconv.FormatInt(x, base)]. *)
Definition FormatInt (x : Z) (base : Z) : string :=
  if x <? 0 then String "-" (FormatUint (- x) base) else FormatUint x base.

(* ------------------------------------------------------------------ *)
(** ** xxhash64 (github.com/cespare/xxhash, seed 0) *)

Module XXH.

Definition prime1 : Z := 11400714785074694791.
Definition prime2 : Z := 14029467366897019727.
Definition prime3 : Z := 1609587929392839161.
Definition prime4 : Z := 9650029242287828579.
Definition prime5 : Z := 2870177450012600261.

Definition rol (x : Z) (r : Z) : Z :=
  u64 (Z.lor (Z.shiftl x r) (Z.shiftr x (64 - r))).

(** Little-endian loads. *)
Fixpoint le_load (bs : list Z) : Z :=
  match bs with
  | [] => 0
  | b :: rest => Z.lor b (Z.shiftl (le_load rest) 8)
  end.

Definition u64le (bs : list Z) : Z := le_load (firstn 8 bs).
Definition u32le (bs : list Z) : Z := le_load (firstn 4 bs).

Definition round (acc input : Z) : Z :=
  u64 (rol (u64 (acc + u64 (input * prime2))) 31 * prime1).

Definition mergeRound (acc val : Z) : Z :=
  u64 (u64 (Z.lxor acc (round 0 val)) * prime1 + prime4).

(** The 32-byte stripe loop; [fuel] is the number of stripes left. *)
Fixpoint stripes (fuel : nat) (bs : list Z) (v1 v2 v3 v4 : Z)
  : Z * Z * Z * Z * list Z :=
  match fuel with
  | O => (v1, v2, v3, v4, bs)
  | S f =>
      if (Z.of_nat (List.length bs) <? 32)%Z then (v1, v2, v3, v4, bs)
      else
        stripes f (skipn 32 bs)
          (round v1 (u64le bs))
          (round v2 (u64le (skipn 8 bs)))
          (round v3 (u64le (skipn 16 bs)))
          (round v4 (u64le (skipn 24 bs)))
  end.

Fixpoint tail8 (fuel : nat) (h : Z) (bs : list Z) : Z * list Z :=
  match fuel with
  | O => (h, bs)
  | S f =>
      if (Z.of_nat (List.length bs) <? 8)%Z then (h, bs)
      else
        let k1 := round 0 (u64le bs) in
        let h := Z.lxor h k1 in
        tail8 f (u64 (rol h 27 * prime1 + prime4)) (skipn 8 bs)
  end.

Fixpoint tail1 (h : Z) (bs : list Z) : Z :=
  match bs with
  | [] => h
  | b :: rest =>
      let h := Z.lxor h (u64 (b * prime5)) in
      tail1 (u64 (rol h 11 * prime1)) rest
  end.

Definition Sum64 (bs : list Z) : Z :=
  let n := List.length bs in
  let '(h, rest) :=
    if (Z.of_nat n >=? 32)%Z then
      let '(v1, v2, v3, v4, rest) :=
        stripes n bs (u64 (prime1 + prime2)) prime2 0 (u64 (- prime1)) in
      let h := u64 (rol v1 1 + rol v2 7 + rol v3 12 + rol v4 18) in
      let h := mergeRound h v1 in
      let h := mergeRound h v2 in
      let h := mergeRound h v3 in
      let h := mergeRound h v4 in
      (h, rest)
    else (prime5, bs) in
  let h := u64 (h + Z.of_nat n) in
  let '(h, rest) := tail8 n h rest in
  let '(h, rest) :=
    if (Z.of_nat (List.length rest) >=? 4)%Z then
      let h := Z.lxor h (u64 (u32le rest * prime1)) in
      (u64 (rol h 23 * prime2 + prime3), skipn 4 rest)
    else (h, rest) in
  let h := tail1 h rest in
  let h := Z.lxor h (Z.shiftr h 33) in
  let h := u64 (h * prime2) in
  let h := Z.lxor h (Z.shiftr h 29) in
  let h := u64 (h * prime3) in
  Z.lxor h (Z.shiftr h 32).

End XXH.

(* ------------------------------------------------------------------ *)
(** ** Multibase encodings used by [cid.Cid.String] (go-cid) *)

Definition b58_alphabet : string :=
  "123456789ABCDEFGHJKLMNPQRSTUVWXYZabcdefghijkmnopqrstuvwxyz".
Definition b32_alphabet : string := "abcdefghijklmnopqrstuvwxyz234567".

Definition alpha_char (alphabet : string) (d : Z) : ascii :=
  match get (Z.to_nat d) alphabet with Some c => c | None => "?"%char end.

(** Big-endian value of a byte string. *)
Definition be_value (bs : list Z) : Z := fold_left (fun acc b => acc * 256 + b) bs 0.

Fixpoint b58_digits (fuel : nat) (n : Z) (acc : list ascii) : list ascii :=
  match fuel with
  | O => acc
  | S f =>
      if n =? 0 then acc
      else b58_digits f (n / 58) (alpha_char b58_alphabet (n mod 58) :: acc)
  end.

Fixpoint leading_zeros (bs : list Z) : nat :=
  match bs with
  | 0 :: rest => S (leading_zeros rest)
  | _ => O
  end.

(** base58btc: one '1' per leading zero byte, then the base-58 digits. *)
Definition base58btc (bs : list Z) : string :=
  string_of_list_ascii
    (repeat "1"%char (leading_zeros bs)
     ++ b58_digits (2 * List.length bs) (be_value bs) [])%list.

(** RFC 4648 base32, lower case, no padding: 5-bit groups, big-endian. *)
Fixpoint b32_groups (fuel : nat) (bits : Z) (nbits : Z) (bs : list Z) : list ascii :=
  match fuel with
  | O => []
  | S f =>
      if nbits >=? 5 then
        alpha_char b32_alphabet (Z.land (Z.shiftr bits (nbits - 5)) 31)
          :: b32_groups f bits (nbits - 5) bs
      else
        match bs with
        | b :: rest => b32_groups f (Z.lor (Z.shiftl (Z.land bits 255) 8) b) (nbits + 8) rest
        | [] =>
            if nbits >? 0
            then [alpha_char b32_alphabet (Z.land (Z.shiftl bits (5 - nbits)) 31)]
            else []
        end
  end.

Definition base32_lower (bs : list Z) : string :=
  string_of_list_ascii (b32_groups (4 * List.length bs + 2) 0 0 bs).

(** Unsigned LEB128 varint. *)
Fixpoint uvarint_fuel (fuel : nat) (n : Z) : list Z :=
  match fuel with
  | O => []
  | S f => if n <? 128 then [n] else Z.lor (n mod 128) 128 :: uvarint_fuel f (n / 128)
  end.
Definition uvarint (n : Z) : list Z := uvarint_fuel 10 n.

(* ------------------------------------------------------------------ *)
(** ** CIDs *)

(** A CID: version, codec and multihash bytes (code, length, digest). *)
Record Cid := mkCid { cid_version : Z; cid_codec : Z; cid_hash : list Z }.

(** [Cid.Hash()]: the multihash bytes. *)
Definition Cid_Hash (c : Cid) : list Z := cid_hash c.

(** [Cid.String()]: a v0 CID is the base58btc multihash; a v1 CID is
    multibase base32 ('b') of version, codec and multihash. *)
Definition Cid_String (c : Cid) : string :=
  if cid_version c =? 0 then base58btc (cid_hash c)
  else String "b" (base32_lower (uvarint (cid_version c) ++ uvarint (cid_codec c) ++ cid_hash c)%list).

Definition list_Z_eqb (a b : list Z) : bool := if list_eq_dec Z.eq_dec a b then true else false.

(** [bytes.Equal(a.Hash(), b.Hash())]. *)
Definition same_multihash (a b : Cid) : bool := list_Z_eqb (Cid_Hash a) (Cid_Hash b).

Definition cid_eqb (a b : Cid) : bool :=
  (cid_version a =? cid_version b) && (cid_codec a =? cid_codec b)
  && list_Z_eqb (cid_hash a) (cid_hash b).

(** testV0 of the tests: QmVXsSVjwxMsCwKRCUxEkGb4f4B98gXVy3ih3v4otvcURK, a
    dag-pb (0x70) sha2-256 CIDv0. *)
Definition testCidV0 : Cid :=
  mkCid 0 112
    [18; 32; 106; 225; 151; 155; 20; 221; 67; 150; 107; 2; 65; 235; 232; 10; 194;
     160; 74; 212; 137; 89; 7; 141; 197; 175; 250; 18; 134; 6; 72; 53; 110; 246].

(* ------------------------------------------------------------------ *)
(** ** IPLD paths (go-ipld-prime datamodel.Path) *)

(** [PathSegment{s, i}]: a string segment has [i = -1], an integer one
    has [s = ""]. Segments are compared as Go structs. *)
Record PathSegment := mkSeg { seg_s : string; seg_i : Z }.

Definition PathSegmentOfString (s : string) : PathSegment := mkSeg s (-1).

Definition PathSegment_String (ps : PathSegment) : string :=
  if seg_i ps <? 0 then seg_s ps else FormatInt (seg_i ps) 10.

Definition seg_eqb (a b : PathSegment) : bool :=
  String.eqb (seg_s a) (seg_s b) && (seg_i a =? seg_i b).

Definition Path := list PathSegment.

(** [strings.FieldsFunc(s, r == '/')]: the non-empty fields between slashes. *)
Fixpoint fields_slash (s : string) (cur : string) : list string :=
  match s with
  | EmptyString => if String.eqb cur "" then [] else [cur]
  | String c rest =>
      if Ascii.eqb c "/"%char
      then ((if String.eqb cur "" then [] else [cur]) ++ fields_slash rest "")%list
      else fields_slash rest (cur ++ String c EmptyString)
  end.

Definition ParsePath (s : string) : Path := map PathSegmentOfString (fields_slash s "").

Fixpoint join_slash (ss : list string) : string :=
  match ss with
  | [] => ""
  | [x] => x
  | x :: rest => x ++ "/" ++ join_slash rest
  end.

Definition Path_String (p : Path) : string := join_slash (map PathSegment_String p).

(* ------------------------------------------------------------------ *)
(** ** Go helpers: nil dereference, [strings.Split], [strconv.ParseInt] *)

(** Dereferencing a Go pointer: [None] (nil) panics, which the functions that
    dereference report as [None]. *)
Definition deref {A} (p : option A) : option A := p.

Notation "'let*' x := a 'in' b" :=
  (match a with Some x => b | None => None end)
  (at level 200, x name, a at level 100, b at level 200).

(** [strings.Split(s, sep)] for a one-character separator. *)
Fixpoint split_char (sep : ascii) (s : string) : list string :=
  match s with
  | EmptyString => [""]
  | String c rest =>
      if Ascii.eqb c sep then "" :: split_char sep rest
      else match split_char sep rest with
           | [] => [String c EmptyString]
           | p :: ps => String c p :: ps
           end
  end.

Definition digit_val (c : ascii) : option Z :=
  let n := Z.of_nat (nat_of_ascii c) in
  if (48 <=? n) && (n <=? 57) then Some (n - 48) else None.

Fixpoint parse_digits (l : list ascii) (acc : Z) : option Z :=
  match l with
  | [] => Some acc
  | c :: rest => let* d := digit_val c in parse_digits rest (acc * 10 + d)
  end.

(** [strconv.ParseUint(s, 10, 64)]: a non-empty run of decimal digits whose
    value fits in 64 bits; [None] is a syntax or range error. *)
Definition ParseUint (l : list ascii) : option Z :=
  match l with
  | [] => None
  | _ =>
      let* un := parse_digits l 0 in
      if un >? two64 - 1 then None else Some un
  end.

(** [strconv.ParseInt(s, 10, 64)]: an optional sign, then [ParseUint], then
    the [int64] range check. *)
Definition ParseInt (s : string) : option Z :=
  match list_ascii_of_string s with
  | [] => None
  | c :: rest =>
      let '(neg, ds) :=
        if Ascii.eqb c "+"%char then (false, rest)
        else if Ascii.eqb c "-"%char then (true, rest)
        else (false, c :: rest) in
      let* un := ParseUint ds in
      if negb neg && (un >=? 2 ^ 63) then None
      else if neg && (un >? 2 ^ 63) then None
      else Some (if neg then - un else un)
  end.

(* ------------------------------------------------------------------ *)
(** ** DagScope and ByteRange (types.go) *)

(** [DagScope] is a Go [string] type; its three named values. *)
Definition DagScope := string.
Definition DagScopeAll : DagScope := "all".
Definition DagScopeEntity : DagScope := "entity".
Definition DagScopeBlock : DagScope := "block".

Record ByteRange := mkByteRange { From : Z; To : option Z }.

(** [ByteRange.IsDefault] (pointer receiver): [br == nil || br.From == 0 && br.To == nil]. *)
Definition IsDefault (br : option ByteRange) : bool :=
  match br with
  | None => true
  | Some b => (From b =? 0) && match To b with None => true | Some _ => false end
  end.

(** [ByteRange.String] (pointer receiver). *)
Definition ByteRange_String (br : option ByteRange) : option string :=
  if IsDefault br then Some "0:*"
  else
    let* b := deref br in
    let to := match To b with None => "*" | Some t => FormatInt t 10 end in
    Some (FormatInt (From b) 10 ++ ":" ++ to).

(** The outcome of [ParseByteRange]: the range, or the error message (the
    zero-ish [ByteRange] Go returns next to an error is not modelled). *)
Inductive ParseResult := ParsedRange (br : ByteRange) | ParseError (msg : string).

(** [ParseByteRange]. *)
Definition ParseByteRange (s : string) : ParseResult :=
  if String.eqb s "" then ParsedRange (mkByteRange 0 None)
  else
    match split_char ":"%char s with
    | [p0; p1] =>
        match ParseInt p0 with
        | None => ParseError "invalid byte range: not an integer"
        | Some from =>
            if String.eqb p1 "*" then ParsedRange (mkByteRange from None)
            else match ParseInt p1 with
                 | None => ParseError "invalid byte range: not an integer"
                 | Some to => ParsedRange (mkByteRange from (Some to))
                 end
        end
    | _ => ParseError "invalid byte range"
    end.

(* ------------------------------------------------------------------ *)
(** ** Selector specs (go-ipld-prime traversal/selector/builder) *)

Inductive RecursionLimit := RecursionLimitNone | RecursionLimitDepth (d : Z).

(** The builder's selector specs, plus the two named selectors exported by
    go-unixfsnode that [TerminalSelectorSpec] returns as they are. *)
Inductive SelectorSpec :=
| ExploreAllRecursivelySelector
| MatchUnixFSEntitySelector
| Matcher
| MatcherSubset (from to : Z)
| ExploreInterpretAs (adl : string) (next : SelectorSpec)
| ExploreUnion (members : list SelectorSpec)
| ExploreRecursive (limit : RecursionLimit) (sequence : SelectorSpec)
| ExploreAll (next : SelectorSpec)
| ExploreRecursiveEdge
| ExploreFields (fields : list (string * SelectorSpec)).

(** [DagScope.TerminalSelectorSpec]. *)
Definition TerminalSelectorSpec (ds : DagScope) : SelectorSpec :=
  if String.eqb ds DagScopeAll then ExploreAllRecursivelySelector
  else if String.eqb ds DagScopeEntity then MatchUnixFSEntitySelector
  else if String.eqb ds DagScopeBlock then Matcher
  else ExploreAllRecursivelySelector.

(** [unixfsnode.UnixFSPathSelectorBuilder(path, target, matchPath)] of
    go-unixfsnode: each segment of the parsed path, outermost first, becomes
    [interpret-as("unixfs", explore-fields({seg: inner}))], the innermost
    being the target; with [matchPath] each level is also matched. *)
Definition UnixFSPathSelectorBuilder (path : string) (target : SelectorSpec)
    (matchPath : bool) : SelectorSpec :=
  fold_right
    (fun seg inner =>
       let ss := ExploreInterpretAs "unixfs"
                   (ExploreFields [(PathSegment_String seg, inner)]) in
       if matchPath then ExploreUnion [Matcher; ss] else ss)
    target (ParsePath path).

(* ------------------------------------------------------------------ *)
(** ** Request (types.go) *)

Record Request := mkRequest {
  Root : Cid;
  ReqPath : string;
  Scope : DagScope;
  Bytes : option ByteRange;
  Duplicates : bool
}.

(** The [to] bound handed to [MatcherSubset] by [Request.Selector]. *)
Definition selector_to (b : ByteRange) : Z :=
  match To b with
  | None => MaxInt64
  | Some t => if t >=? 0 then wrap64 (t + 1) (* to++ *) else t
  end.

(** [Request.Selector]. *)
Definition Request_Selector (r : Request) : option SelectorSpec :=
  let terminal := TerminalSelectorSpec (Scope r) in
  let* terminal :=
    if String.eqb (Scope r) DagScopeEntity && negb (IsDefault (Bytes r)) then
      let* b := deref (Bytes r) in
      let to := selector_to b in
      Some (ExploreInterpretAs "unixfs"
              (ExploreUnion
                 [MatcherSubset (From b) to;
                  ExploreRecursive (RecursionLimitDepth 1)
                    (ExploreAll ExploreRecursiveEdge)]))
    else Some terminal in
  Some (UnixFSPathSelectorBuilder (ReqPath r) terminal false).

(** [url.PathEscape]: the [shouldEscape] test of [encodePathSegment] mode. *)
Definition shouldEscapePathSegment (c : Z) : bool :=
  if ((97 <=? c) && (c <=? 122)) || ((65 <=? c) && (c <=? 90))
     || ((48 <=? c) && (c <=? 57)) then false
  else if existsb (Z.eqb c) [45; 95; 46; 126] (* - _ . ~ *) then false
  else if existsb (Z.eqb c) [36; 38; 43; 44; 47; 58; 59; 61; 63; 64] (* $&+,/:;=?@ *)
  then existsb (Z.eqb c) [47; 59; 44; 63] (* / ; , ? *)
  else true.

Definition upperhex (d : Z) : ascii :=
  if d <? 10 then ascii_of_Z (48 + d) else ascii_of_Z (65 + d - 10).

Definition url_PathEscape (s : string) : string :=
  string_of_list_ascii
    (flat_map (fun a =>
       let c := Z.of_nat (nat_of_ascii a) in
       if shouldEscapePathSegment c
       then ["%"%char; upperhex (c / 16); upperhex (c mod 16)]
       else [a]) (list_ascii_of_string s)).

(** [PathEscape]. *)
Definition PathEscape (path : string) : string :=
  if String.eqb path "" then path
  else String.concat "" (map (fun ps => "/" ++ url_PathEscape (PathSegment_String ps))
                           (ParsePath path)).

(** [Request.UrlPath]; its error result is always nil. *)
Definition Request_UrlPath (r : Request) : option string :=
  let scope := if String.eqb (Scope r) "" then DagScopeAll else Scope r in
  let* byteRange :=
    if negb (IsDefault (Bytes r)) then
      let* s := ByteRange_String (Bytes r) in Some ("&entity-bytes=" ++ s)
    else Some "" in
  let path := PathEscape (ReqPath r) in
  Some (path ++ "?dag-scope=" ++ scope ++ byteRange).

Definition nul : string := String (ascii_of_nat 0) EmptyString.
Definition dquote : string := String (ascii_of_nat 34) EmptyString.

(** The bytes [Request.Etag] writes into the xxhash digest, in order; the
    streaming digest of a sequence of writes is [Sum64] of their
    concatenation. *)
Definition etag_writes (r : Request) (order : string) : option (list string) :=
  let path_part :=
    if String.eqb (ReqPath r) "" then []
    else ["/"; Path_String (ParsePath (ReqPath r))] in
  let scope_part :=
    if String.eqb (Scope r) DagScopeAll then [] else [nul ++ "scope="; Scope r] in
  let* range_part :=
    if negb (IsDefault (Bytes r)) then
      let* b := deref (Bytes r) in
      Some ([(nul ++ "range=")%string; FormatInt (From b) 10]
            ++ match To b with None => [] | Some t => [","; FormatInt t 10] end)%list
    else Some [] in
  let order_part :=
    if negb (String.eqb order "") && negb (String.eqb order "dfs")
    then [nul ++ "order="; order] else [] in
  let dups_part := if Duplicates r then [nul ++ "dups=y"] else [] in
  Some (["/ipfs/"; Cid_String (Root r)] ++ path_part ++ scope_part ++ range_part
        ++ order_part ++ dups_part)%list.

(** [Request.Etag(order)]. *)
Definition Request_Etag (r : Request) (order : string) : option string :=
  let* ws := etag_writes r order in
  let suffix := FormatUint (XXH.Sum64 (bytes_of_string (String.concat "" ws))) 32 in
  Some ("W/" ++ dquote ++ Cid_String (Root r) ++ ".car." ++ suffix ++ dquote).

(* ------------------------------------------------------------------ *)
(** ** [sort.SliceStable] (Go's sort/zsortfunc.go) *)

(** The slice is held as a list; [Swap] and [Less] act on its current
    contents, as the [reflect.Swapper] and the [less] closure of
    [sort.SliceStable] do. *)
Module GoSort.
Local Open Scope nat_scope.
Section Stable.
Context {A : Type}.
(** A filler for [nth]: the algorithm only reads indices in range. *)
Variable dflt : A.
(** The [less] closure, on the elements at the two indices. *)
Variable lt : A -> A -> bool.

Fixpoint upd (l : list A) (i : nat) (x : A) : list A :=
  match l, i with
  | [], _ => []
  | _ :: rest, O => x :: rest
  | y :: rest, S i => y :: upd rest i x
  end.

(** [data.Swap(i, j)]; an index out of range, where Go panics, is never
    reached and leaves the slice as it is. *)
Definition Swap (l : list A) (i j : nat) : list A :=
  match nth_error l i, nth_error l j with
  | Some x, Some y => upd (upd l i y) j x
  | _, _ => l
  end.

(** [data.Less(i, j)]. *)
Definition Less (l : list A) (i j : nat) : bool := lt (nth i l dflt) (nth j l dflt).

(** The inner loop of [insertionSort_func]:
    [for j := i; j > a && data.Less(j, j-1); j-- { data.Swap(j, j-1) }];
    the fuel [j - a] is the most rounds it can run. *)
Fixpoint insertion_step (fuel a j : nat) (l : list A) : list A :=
  match fuel with
  | O => l
  | S f =>
      if (a <? j) && Less l j (j - 1)
      then insertion_step f a (j - 1) (Swap l j (j - 1))
      else l
  end.

(** [insertionSort_func(data, a, b)]: [for i := a + 1; i < b; i++]. *)
Definition insertionSort (l : list A) (a b : nat) : list A :=
  fold_left (fun l i => insertion_step (i - a) a i l) (seq (a + 1) (b - (a + 1))) l.

(** The binary searches of [symMerge_func]:
    [for i < j { h := int(uint(i+j) >> 1); if p(h) { i = h + 1 } else { j = h } }];
    every round shrinks [j - i], which is the fuel. *)
Fixpoint search (fuel : nat) (p : nat -> bool) (i j : nat) : nat :=
  match fuel with
  | O => i
  | S f =>
      if i <? j then
        let h := (i + j) / 2 in
        if p h then search f p (h + 1) j else search f p i h
      else i
  end.

(** [swapRange_func(data, a, b, n)]. *)
Definition swapRange (l : list A) (a b n : nat) : list A :=
  fold_left (fun l i => Swap l (a + i) (b + i)) (seq 0 n) l.

(** The loop of [rotate_func]: [for i != j { ... }]; with [i] and [j]
    positive every round shrinks [i + j], which is the fuel. It returns the
    final [i] with the slice. *)
Fixpoint rotate_loop (fuel m i j : nat) (l : list A) : nat * list A :=
  match fuel with
  | O => (i, l)
  | S f =>
      if i =? j then (i, l)
      else if j <? i then rotate_loop f m (i - j) j (swapRange l (m - i) m j)
      else rotate_loop f m i (j - i) (swapRange l (m - i) (m + j - i) i)
  end.

(** [rotate_func(data, a, m, b)]. *)
Definition rotate (l : list A) (a m b : nat) : list A :=
  let '(i, l) := rotate_loop (b - a) m (m - a) (b - m) l in
  swapRange l (m - i) m i.

(** [symMerge_func(data, a, m, b)]; both recursive calls are on ranges
    strictly inside [[a, b)], so the fuel [b - a] is never exhausted. *)
Fixpoint symMerge (fuel : nat) (l : list A) (a m b : nat) : list A :=
  match fuel with
  | O => l
  | S f =>
      if m - a =? 1 then
        let i := search (b - m) (fun h => Less l h a) m b in
        fold_left (fun l k => Swap l k (k + 1)) (seq a (i - 1 - a)) l
      else if b - m =? 1 then
        let i := search (m - a) (fun h => negb (Less l m h)) a m in
        fold_left (fun l k => Swap l k (k - 1)) (rev (seq (i + 1) (m - i))) l
      else
        let mid := (a + b) / 2 in
        let n := mid + m in
        let '(start, r) := if mid <? m then (n - b, mid) else (a, m) in
        let p := n - 1 in
        let start := search (r - start) (fun c => negb (Less l (p - c) c)) start r in
        let end_ := n - start in
        let l := if (start <? m) && (m <? end_) then rotate l start m end_ else l in
        let l := if (a <? start) && (start <? mid) then symMerge f l a start mid else l in
        if (mid <? end_) && (end_ <? b) then symMerge f l mid end_ b else l
  end.

(** The merge rounds of [stable_func]: [for blockSize < n { ...;
    blockSize *= 2 }]; the block size at least doubles from 20, so the fuel
    [n] is never exhausted. *)
Fixpoint merge_rounds (fuel blockSize n : nat) (l : list A) : list A :=
  match fuel with
  | O => l
  | S f =>
      if blockSize <? n then
        let l := fold_left
                   (fun l k => symMerge (2 * blockSize) l (2 * blockSize * k)
                                 (2 * blockSize * k + blockSize) (2 * blockSize * (k + 1)))
                   (seq 0 (n / (2 * blockSize))) l in
        let a := 2 * blockSize * (n / (2 * blockSize)) in
        let l := if a + blockSize <? n then symMerge (n - a) l a (a + blockSize) n else l in
        merge_rounds f (2 * blockSize) n l
      else l
  end.

(** [stable_func(data, n)]: insertion sort on blocks of 20, then merges of
    blocks of doubling size. *)
Definition stable (l : list A) (n : nat) : list A :=
  let l := fold_left (fun l k => insertionSort l (20 * k) (20 * (k + 1))) (seq 0 (n / 20)) l in
  let l := insertionSort l (20 * (n / 20)) n in
  merge_rounds n 20 n l.

(** [sort.SliceStable(x, less)]. *)
Definition SliceStable (l : list A) : list A := stable l (List.length l).

End Stable.
End GoSort.

(* ------------------------------------------------------------------ *)
(** ** HTTP content negotiation (http/constants.go, http/parse.go) *)

From Stdlib Require Import QArith.

Module Http.

Definition MimeTypeCar : string := "application/vnd.ipld.car".
Definition MimeTypeRaw : string := "application/vnd.ipld.raw".
Definition MimeTypeCarVersion : string := "1".
Definition FormatParameterCar : string := "car".
Definition FormatParameterRaw : string := "raw".

Definition ContentTypeOrder := string.
Definition ContentTypeOrderDfs : ContentTypeOrder := "dfs".
Definition ContentTypeOrderUnk : ContentTypeOrder := "unk".

(** A Go [float32]: a finite value (the rational it denotes), an infinity
    ([FInf true] is [-Inf]) or NaN. *)
Inductive Float32 := FNum (q : Q) | FInf (neg : bool) | FNaN.

(** Go's [x < y] on floats: false when either side is NaN. *)
Definition f32_lt (x y : Float32) : bool :=
  match x, y with
  | FNum a, FNum b => if Qlt_le_dec a b then true else false
  | FInf true, FNum _ | FInf true, FInf false | FNum _, FInf false => true
  | _, _ => false
  end.

(** Go's [x <= y] on floats: false when either side is NaN. *)
Definition f32_le (x y : Float32) : bool :=
  match x, y with
  | FNum a, FNum b => if Qlt_le_dec b a then false else true
  | FInf true, _ => match y with FNaN => false | _ => true end
  | FNum _, FInf false | FInf false, FInf false => true
  | _, _ => false
  end.

Record ContentType := mkContentType {
  MimeType : string;
  Order : ContentTypeOrder;
  CTDuplicates : bool;
  Quality : Float32
}.

Definition DefaultContentType : ContentType :=
  mkContentType MimeTypeCar ContentTypeOrderDfs true (FNum 1).

Definition WithMimeType (ct : ContentType) (mime : string) : ContentType :=
  mkContentType mime (Order ct) (CTDuplicates ct) (Quality ct).

Definition IsCar (ct : ContentType) : bool :=
  String.eqb (MimeType ct) MimeTypeCar || String.eqb (MimeType ct) "application/*"
  || String.eqb (MimeType ct) "*/*".

(** The UTF-8 encodings of the runes [unicode.IsSpace] accepts: the ASCII
    [\t \n \v \f \r] and space, U+0085, U+00A0, U+1680, U+2000 to
    U+200A, U+2028, U+2029, U+202F, U+205F and U+3000. *)
Definition space_encodings : list (list nat) :=
  ([[9]; [10]; [11]; [12]; [13]; [32]; [194; 133]; [194; 160]; [225; 154; 128]]
   ++ map (fun k => [226; 128; 128 + k]) (seq 0 11)
   ++ [[226; 128; 168]; [226; 128; 169]; [226; 128; 175]; [226; 129; 159]; [227; 128; 128]])%list%nat.

Fixpoint bytes_prefix (p : list nat) (s : list ascii) : bool :=
  match p, s with
  | [], _ => true
  | b :: p, c :: s => Nat.eqb b (nat_of_ascii c) && bytes_prefix p s
  | _ :: _, [] => false
  end.

(** Drop the leading space runes of [s], given with the encodings as they
    read from its start; every round drops at least one byte. *)
Fixpoint trim_runes (fuel : nat) (encs : list (list nat)) (s : list ascii) : list ascii :=
  match fuel with
  | O => s
  | S f =>
      match find (fun e => bytes_prefix e s) encs with
      | Some e => trim_runes f encs (skipn (List.length e) s)
      | None => s
      end
  end.

(** [strings.TrimSpace]: the leading space runes, then the trailing ones
    (read backwards, a rune's bytes are reversed). A space rune's encoding
    at the end is the rune [utf8.DecodeLastRuneInString] decodes there. *)
Definition TrimSpace (s : string) : string :=
  let l := trim_runes (String.length s) space_encodings (list_ascii_of_string s) in
  string_of_list_ascii
    (rev (trim_runes (List.length l) (map (@rev nat) space_encodings) (rev l))).

Section Negotiation.

(** [strconv.ParseFloat(value, 32)], [None] when it returns an error: the
    decimal-to-binary rounding is not modelled, so the parser is a
    parameter. It returns a [float32] value, which may be NaN or an
    infinity ("NaN", "Inf"). *)
Variable ParseFloat32 : string -> option Float32.

(** One [key=value] segment of [parseContentType]; [None] rejects the
    whole content type. *)
Definition parse_param (mime : string) (ct : ContentType) (part : string)
  : option ContentType :=
  match split_char "="%char part with
  | [a; v] =>
      let attr := TrimSpace a in
      let value := TrimSpace v in
      let* ct :=
        if String.eqb mime MimeTypeCar then
          if String.eqb attr "dups" then
            if String.eqb value "y" then Some (mkContentType (MimeType ct) (Order ct) true (Quality ct))
            else if String.eqb value "n" then Some (mkContentType (MimeType ct) (Order ct) false (Quality ct))
            else None
          else if String.eqb attr "version" then
            if String.eqb value MimeTypeCarVersion then Some ct else None
          else if String.eqb attr "order" then
            if String.eqb value "dfs" then Some (mkContentType (MimeType ct) ContentTypeOrderDfs (CTDuplicates ct) (Quality ct))
            else if String.eqb value "unk" then Some (mkContentType (MimeType ct) ContentTypeOrderUnk (CTDuplicates ct) (Quality ct))
            else None
          else Some ct
        else Some ct in
      if String.eqb attr "q" then
        match ParseFloat32 value with
        | None => None
        | Some q =>
            if f32_lt q (FNum 0) || f32_lt (FNum 1) q then None
            else Some (mkContentType (MimeType ct) (Order ct) (CTDuplicates ct) q)
        end
      else Some ct
  | _ => Some ct
  end.

Fixpoint parse_params (mime : string) (ct : ContentType) (parts : list string)
  : option ContentType :=
  match parts with
  | [] => Some ct
  | p :: rest => let* ct := parse_param mime ct p in parse_params mime ct rest
  end.

(** [parseContentType(header, strictType)]; [None] is [(ContentType{}, false)]. *)
Definition parseContentType (header : string) (strictType : bool) : option ContentType :=
  match split_char ";"%char header with
  | [] => None
  | t0 :: rest =>
      let mime := TrimSpace t0 in
      if String.eqb mime MimeTypeCar || String.eqb mime MimeTypeRaw
         || (negb strictType && (String.eqb mime "*/*" || String.eqb mime "application/*"))
      then parse_params mime (WithMimeType DefaultContentType mime) rest
      else None
  end.

(** The [less] of [ParseAccept]'s sort: [accepts[i].Quality > accepts[j].Quality]. *)
Definition quality_gt (x y : ContentType) : bool := f32_lt (Quality y) (Quality x).

(** [ParseAccept]. *)
Definition ParseAccept (acceptHeader : string) : list ContentType :=
  GoSort.SliceStable DefaultContentType quality_gt
    (flat_map (fun t => match parseContentType t false with Some c => [c] | None => [] end)
       (split_char ","%char acceptHeader)).

(** The parts of an [*http.Request] that [CheckFormat] reads:
    [URL.Query().Get("format")] and [Header.Get("Accept")], both [""] when
    absent. *)
Record HttpRequest := mkHttpRequest { QueryFormat : string; AcceptHeader : string }.

Definition is_wildcard (ct : ContentType) : bool :=
  String.eqb (MimeType ct) "*/*" || String.eqb (MimeType ct) "application/*".

(** [CheckFormat]: [inl] the content types in preference order, [inr] the
    error message. *)
Definition CheckFormat (req : HttpRequest) : list ContentType + string :=
  let format := QueryFormat req in
  if negb (String.eqb format "" || String.eqb format FormatParameterCar
           || String.eqb format FormatParameterRaw)
  then inr "invalid format parameter; unsupported"
  else
  let accept := AcceptHeader req in
  let accepts := if String.eqb accept "" then [] else ParseAccept accept in
  if negb (String.eqb accept "") && (match accepts with [] => true | _ => false end)
  then
    (* invalid Accept header: use the format parameter if there is one *)
    if String.eqb format FormatParameterCar
    then inl [WithMimeType DefaultContentType MimeTypeCar]
    else if String.eqb format FormatParameterRaw
    then inl [WithMimeType DefaultContentType MimeTypeRaw]
    else inr "invalid Accept header; unsupported"
  else
  let hasWildcardAccept :=
    match accepts with a0 :: _ => is_wildcard a0 | [] => false end in
  if negb (match accepts with [] => true | _ => false end) && negb hasWildcardAccept
  then inl accepts
  else if String.eqb format FormatParameterCar then
    match find IsCar accepts with
    | Some a => inl [WithMimeType a MimeTypeCar]
    | None => inl [WithMimeType DefaultContentType MimeTypeCar]
    end
  else if String.eqb format FormatParameterRaw then
    inl [WithMimeType DefaultContentType MimeTypeRaw]
  else match accepts with
       | [] => inr "neither a valid Accept header nor format parameter were provided"
       | _ => inl accepts
       end.

End Negotiation.

(** A [ParseFloat] for "NaN" and decimals ("d", "d.ddd"), exact on them,
    used to run concrete requests. *)
Definition ParseDecimal (s : string) : option Float32 :=
  if String.eqb s "NaN" then Some FNaN else
  match split_char "."%char s with
  | [i] => let* n := ParseUint (list_ascii_of_string i) in Some (FNum (inject_Z n))
  | [i; f] =>
      let* n := ParseUint (list_ascii_of_string i) in
      let* m := ParseUint (list_ascii_of_string f) in
      Some (FNum (inject_Z n + Qmake m (Pos.of_nat (Nat.pow 10 (String.length f))))%Q)
  | _ => None
  end.

End Http.

(* ------------------------------------------------------------------ *)
(** ** The CAR verifier (traversal/traversal.go, traversal/readopener.go) *)

Open Scope Z_scope.

Module Traversal.

(** Go errors as the verifier produces and inspects them. *)
Inductive Err :=
| ErrSentinel (name : string)        (* errors.New: ErrMalformedCar, io.EOF, ... *)
| ErrNotFound (c : Cid)              (* format.ErrNotFound{Cid}: NotFound() is true *)
| ErrWrap (msg : string) (inner : Err) (* fmt.Errorf with one %w *)
| ErrCombine (es : list Err)         (* multierr.Combine: Unwrap() []error *)
| ErrOther (msg : string).           (* any other error of a collaborator *)

Definition EOF : Err := ErrSentinel "EOF".
Definition ErrMalformedCar : Err := ErrSentinel "malformed CAR".
Definition ErrBadVersion : Err := ErrSentinel "bad CAR version".
Definition ErrBadRoots : Err := ErrSentinel "CAR root CID mismatch".
Definition ErrUnexpectedBlock : Err := ErrSentinel "unexpected block in CAR".
Definition ErrExtraneousBlock : Err := ErrSentinel "extraneous block in CAR".
Definition ErrMissingBlock : Err := ErrSentinel "missing block in CAR".

(** [errors.Is(err, ErrSentinel name)]: the error tree, through both kinds of
    [Unwrap]. *)
Fixpoint errors_Is (e : Err) (name : string) : bool :=
  match e with
  | ErrSentinel n => String.eqb n name
  | ErrWrap _ inner => errors_Is inner name
  | ErrCombine es => existsb (fun e => errors_Is e name) es
  | _ => false
  end.

(** [traversalError]: walk the [errors.Unwrap] chain (single-error
    unwrapping only) looking for an error whose [NotFound()] is true. *)
Fixpoint traversalError_loop (err original : Err) : Err :=
  match err with
  | ErrNotFound _ => ErrCombine [ErrMissingBlock; err]
  | ErrWrap _ inner => traversalError_loop inner original
  | _ => original
  end.

Definition traversalError (original : Err) : Err := traversalError_loop original original.

Record Block := mkBlock { blk_cid : Cid; blk_data : list Z }.

(** What [BlockStream.Next] yields; the end of the list is [io.EOF]. *)
Inductive StreamItem := SBlock (b : Block) | SErr (e : Err).

Definition Next (bs : list StreamItem) : (Block + Err) * list StreamItem :=
  match bs with
  | [] => (inr EOF, [])
  | SBlock b :: rest => (inl b, rest)
  | SErr e :: rest => (inr e, rest)
  end.

(** [readNextBlock]. *)
Definition readNextBlock (bs : list StreamItem) (expected : Cid)
  : (list Z + Err) * list StreamItem :=
  let '(r, bs) := Next bs in
  match r with
  | inr e =>
      if errors_Is e "EOF" then (inr (ErrNotFound expected), bs)
      else (inr (ErrCombine [ErrMalformedCar; e]), bs)
  | inl blk =>
      if negb (same_multihash (blk_cid blk) expected)
      then (inr (ErrWrap "unexpected block" ErrUnexpectedBlock), bs)
      else (inl (blk_data blk), bs)
  end.

(** [writeTracker]; the counters are [uint64] in Go, which 2^64 loads would
    be needed to overflow. *)
Record WriteTracker := mkTracker {
  blocksIn : nat; blocksOut : nat; bytesIn : nat; bytesOut : nat }.

Definition zeroTracker : WriteTracker := mkTracker 0 0 0 0.

Definition recordBlockIn (bt : WriteTracker) (data : list Z) : WriteTracker :=
  mkTracker (S (blocksIn bt)) (blocksOut bt) (bytesIn bt + List.length data) (bytesOut bt).

Definition recordBlockOut (bt : WriteTracker) (data : list Z) : WriteTracker :=
  mkTracker (blocksIn bt) (S (blocksOut bt)) (bytesIn bt) (bytesOut bt + List.length data).

(** The result of a [BlockReadOpener] call: a reader over the data, an
    error, or a Go panic. *)
Inductive LoadResult := LOk (data : list Z) | LErr (e : Err) | LPanic.

(** The storage of the caller's [LinkSystem]: the blocks it holds, keyed by
    CID, and the outcome of each of its coming writes. A write is
    [StorageWriteOpener], then [io.Copy] into the writer, then the commit;
    [Some e] in [store_writes] is the error [e] of the first of these to
    fail, [None] a write that succeeds. Past the end of the list writes
    succeed. *)
Record Store := mkStore {
  store_blocks : list (Cid * list Z);
  store_writes : list (option Err) }.

Definition emptyStore : Store := mkStore [] [].

Fixpoint blocks_get (bl : list (Cid * list Z)) (c : Cid) : list Z + Err :=
  match bl with
  | [] => inr (ErrNotFound c)
  | (k, v) :: rest => if cid_eqb k c then inl v else blocks_get rest c
  end.

(** [StorageReadOpener]: a miss is a not-found error. *)
Definition store_get (s : Store) (c : Cid) : list Z + Err := blocks_get (store_blocks s) c.

(** One write of [data] under [c]; on an error nothing is committed. *)
Definition store_write (s : Store) (c : Cid) (data : list Z) : option Err * Store :=
  match store_writes s with
  | Some e :: rest => (Some e, mkStore (store_blocks s) rest)
  | None :: rest => (None, mkStore ((c, data) :: store_blocks s) rest)
  | [] => (None, mkStore ((c, data) :: store_blocks s) [])
  end.

Record Config := mkConfig {
  CfgRoot : Cid;
  AllowCARv2 : bool;
  CheckRootsMismatch : bool;
  ExpectDuplicatesIn : bool;
  WriteDuplicatesOut : bool
}.

(** The state the read-opener closes over: the [seen] set, the remaining
    stream, the store and the tracker. *)
Record OpenerState := mkOpener {
  seen : list Cid;
  stream : list StreamItem;
  store : Store;
  tracker : WriteTracker
}.

Definition memb (c : Cid) (l : list Cid) : bool := existsb (cid_eqb c) l.

(** The tail of the read-opener: record the block out, write it to the
    store (returning the write's error as it is) and return it. *)
Definition write_out (st : OpenerState) (c : Cid) (data : list Z)
  : LoadResult * OpenerState :=
  let bt := recordBlockOut (tracker st) data in
  let '(r, s) := store_write (store st) c data in
  match r with
  | Some e => (LErr e, mkOpener (seen st) (stream st) s bt)
  | None => (LOk data, mkOpener (seen st) (stream st) s bt)
  end.

(** [Config.nextBlockReadOpener]: one call for the link [c]. *)
Definition nextBlockReadOpener (cfg : Config) (c : Cid) (st : OpenerState)
  : LoadResult * OpenerState :=
  if memb c (seen st) then
    if ExpectDuplicatesIn cfg then
      let '(r, bs) := readNextBlock (stream st) c in
      match r with
      | inr e => (LErr e, mkOpener (seen st) bs (store st) (tracker st))
      | inl data =>
          let st := mkOpener (seen st) bs (store st) (recordBlockIn (tracker st) data) in
          if negb (WriteDuplicatesOut cfg) then (LOk data, st)
          else write_out st c data
      end
    else
      match store_get (store st) c with
      | inl data =>
          if negb (WriteDuplicatesOut cfg) then (LOk data, st)
          else write_out st c data
      | inr e =>
          (* a nil reader: returned as is, or read by io.ReadAll, which panics *)
          if negb (WriteDuplicatesOut cfg) then (LErr e, st) else (LPanic, st)
      end
  else
    let st := mkOpener (c :: seen st) (stream st) (store st) (tracker st) in
    let '(r, bs) := readNextBlock (stream st) c in
    match r with
    | inr e => (LErr e, mkOpener (seen st) bs (store st) (tracker st))
    | inl data =>
        write_out (mkOpener (seen st) bs (store st) (recordBlockIn (tracker st) data)) c data
    end.

(** [ErrorCapturingReader]: it wraps a read-opener with its own state [St]
    and stores every error returned into the shared cell [Error]. *)
Section ErrorCapturing.
Context {St : Type}.
Variable sro : Cid -> St -> LoadResult * St.

Record ECR := mkECR { ecr_inner : St; Error : option Err }.

Definition ecr_StorageReadOpener (l : Cid) (s : ECR) : LoadResult * ECR :=
  let '(r, inner) := sro l (ecr_inner s) in
  (r, mkECR inner (match r with LErr e => Some e | _ => Error s end)).

(** A sequence of loads; [None] when one of them panics. *)
Fixpoint ecr_loads (ls : list Cid) (s : ECR) : option (list LoadResult * ECR) :=
  match ls with
  | [] => Some ([], s)
  | l :: rest =>
      let '(r, s) := ecr_StorageReadOpener l s in
      match r with
      | LPanic => None
      | _ => match ecr_loads rest s with
             | Some (rs, s) => Some (r :: rs, s)
             | None => None
             end
      end
  end.
End ErrorCapturing.

(** The selector walk of go-ipld-prime, which the verifier drives. Before
    any block is read: the error of [selector.CompileSelector]
    ([walk_compile_err]), and the error of choosing the root's node
    prototype or, in [LinkSystem.Fill], its decoder and hasher, as
    [loadNode] returns it ([walk_setup_err]). After the root block is read: the error of hashing
    and decoding it ([walk_root_err]). Then the links it loads, in order,
    the error it reports (budget, decoding, or a load error it propagates)
    and the last path its visitor saw. *)
Record Walk := mkWalk {
  walk_compile_err : option Err;
  walk_setup_err : option Err;
  walk_root_err : option Err;
  walk_loads : list Cid;
  walk_err : option Err;
  walk_last : Path }.

(** [Config.Traverse] over the verifier's read-opener. *)
Definition Traverse (cfg : Config) (w : Walk) (st : OpenerState)
  : option ((Path + Err) * OpenerState) :=
  match walk_compile_err w with
  | Some e => Some (inr e, st)
  | None =>
  match walk_setup_err w with
  | Some e => Some (inr (ErrWrap "failed to load root node" e), st)
  | None =>
  let s := mkECR st None in
  let '(r, s) := ecr_StorageReadOpener (nextBlockReadOpener cfg) (CfgRoot cfg) s in
  match r with
  | LPanic => None
  | LErr e =>
      Some (inr (ErrWrap "failed to load root node" (ErrWrap "failed to load root CID" e)),
            ecr_inner s)
  | LOk _ =>
      match walk_root_err w with
      | Some e =>
          Some (inr (ErrWrap "failed to load root node" (ErrWrap "failed to load root CID" e)),
                ecr_inner s)
      | None =>
      match ecr_loads (nextBlockReadOpener cfg) (walk_loads w) s with
      | None => None
      | Some (_, s) =>
      match walk_err w with
      | Some e => Some (inr e, ecr_inner s)
      | None =>
          match Error s with
          | Some e => Some (inr (ErrWrap "block load failed during traversal" e), ecr_inner s)
          | None => Some (inl (walk_last w), ecr_inner s)
          end
      end
      end
      end
  end
  end
  end.

Record TraversalResult := mkResult {
  LastPath : Path; BlocksIn : nat; BytesIn : nat; BlocksOut : nat; BytesOut : nat }.

Definition zeroResult : TraversalResult := mkResult [] 0 0 0 0.

(** [Config.VerifyBlockStream]; [None] is a panic. *)
Definition VerifyBlockStream (cfg : Config) (bs : list StreamItem) (lsys : Store) (w : Walk)
  : option (TraversalResult * option Err) :=
  match Traverse cfg w (mkOpener [] bs lsys zeroTracker) with
  | None => None
  | Some (r, st) =>
  match r with
  | inr e => Some (zeroResult, Some (traversalError e))
  | inl lastPath =>
      let '(n, _) := Next (stream st) in
      match n with
      | inl _ => Some (zeroResult, Some ErrExtraneousBlock)
      | inr e =>
          if negb (errors_Is e "EOF") then Some (zeroResult, Some e)
          else
            let bt := tracker st in
            Some (mkResult lastPath (blocksIn bt) (bytesIn bt) (blocksOut bt) (bytesOut bt), None)
      end
  end
  end.

(** What [car.NewBlockReader] yields: the header (version and roots) and the
    block stream, or a parse error. *)
Record CarHeader := mkCarHeader { Version : Z; Roots : list Cid }.
Record Car := mkCar { car_header : CarHeader + Err; car_blocks : list StreamItem }.

(** [Config.VerifyCar]. *)
Definition VerifyCar (cfg : Config) (car : Car) (lsys : Store) (w : Walk)
  : option (TraversalResult * option Err) :=
  match car_header car with
  | inr e => Some (zeroResult, Some (ErrCombine [ErrMalformedCar; e]))
  | inl h =>
      if Z.eqb (Version h) 1 || (Z.eqb (Version h) 2 && AllowCARv2 cfg) then
        if CheckRootsMismatch cfg
           && negb (match Roots h with [r] => cid_eqb r (CfgRoot cfg) | _ => false end)
        then Some (zeroResult, Some ErrBadRoots)
        else VerifyBlockStream cfg (car_blocks car) lsys w
      else Some (zeroResult, Some ErrBadVersion)
  end.

(** [CheckPath]; [Some msg] is the returned error. *)
Fixpoint CheckPath (expectPath lastPath : Path) : option string :=
  match expectPath with
  | [] => None
  | seg :: erest =>
      match lastPath with
      | [] => Some "failed to traverse full path"
      | lastSeg :: lrest =>
          if negb (seg_eqb seg lastSeg) then Some "unexpected path segment visit"
          else CheckPath erest lrest
      end
  end.

End Traversal.

(* ------------------------------------------------------------------ *)
(** ** [ParseDagScope] (types.go) *)

(** [ParseDagScope]: the scope, and [Some s] for the error
    [invalid DagScope: %q] it returns for the input [s]. *)
Definition ParseDagScope (s : string) : DagScope * option string :=
  if String.eqb s "all" then (DagScopeAll, None)
  else if String.eqb s "entity" then (DagScopeEntity, None)
  else if String.eqb s "block" then (DagScopeBlock, None)
  else (DagScopeAll, Some s).

(* ------------------------------------------------------------------ *)
(** ** Request parsing and response headers (http/parse.go, http/constants.go) *)

Module HttpParse.
Import Http.

(** [url.Values] as [req.URL.Query()] returns it: the key/value pairs of the
    query in their order. [Has] is any pair with the key, [Get] the value of
    the first one, or [""]. *)
Definition Values := list (string * string).

Definition Values_Has (q : Values) (k : string) : bool :=
  existsb (fun kv => String.eqb (fst kv) k) q.

Definition Values_Get (q : Values) (k : string) : string :=
  match find (fun kv => String.eqb (fst kv) k) q with
  | Some kv => snd kv
  | None => ""
  end.

(** [ParseScope]; [Some msg] is the error. *)
Definition ParseScope (q : Values) : DagScope * option string :=
  if Values_Has q "dag-scope" then
    let '(ds, err) := ParseDagScope (Values_Get q "dag-scope") in
    match err with
    | Some _ => (ds, Some "invalid dag-scope parameter")
    | None => (ds, None)
    end
  else (DagScopeAll, None).

(** [ParseByteRange(req)] (the [ParseByteRange] in its body is that of
    types.go, declared above): [inl] the returned pointer ([None] is nil),
    [inr] the error. *)
Definition ParseByteRange (q : Values) : option ByteRange + string :=
  if Values_Has q "entity-bytes" then
    match ParseByteRange (Values_Get q "entity-bytes") with
    | ParseError _ => inr "invalid entity-bytes parameter"
    | ParsedRange br => inl (Some br)
    end
  else inl None.

Definition FilenameExtCar : string := ".car".

(** The loop of [filepath.Ext] (Unix separator), over the characters of the
    path from its end: [suffix] is what has been passed so far. *)
Fixpoint ext_scan (rl : list ascii) (suffix : list ascii) : list ascii :=
  match rl with
  | [] => []
  | c :: rest =>
      if Ascii.eqb c "/"%char then []
      else if Ascii.eqb c "."%char then c :: suffix
      else ext_scan rest (c :: suffix)
  end.

(** [filepath.Ext]. *)
Definition filepath_Ext (path : string) : string :=
  string_of_list_ascii (ext_scan (rev (list_ascii_of_string path)) []).

(** [ParseFilename]; [inr] is the error ([%q] of the extension left out). *)
Definition ParseFilename (q : Values) : string + string :=
  if Values_Has q "filename" then
    let filename := Values_Get q "filename" in
    let ext := filepath_Ext filename in
    if String.eqb ext "" then inr "invalid filename parameter; missing extension"
    else if negb (String.eqb ext FilenameExtCar)
    then inr "invalid filename parameter; unsupported extension"
    else inl filename
  else inl "".

(** [ParseContentType]: the strict form of [parseContentType]. *)
Definition ParseContentType (ParseFloat32 : string -> option Float32) (h : string)
  : option ContentType :=
  parseContentType ParseFloat32 h true.

(** The errors of [ParseUrlPath]. *)
Inductive UrlPathError := ErrPathNotFound | ErrBadCid.

(** [Path.Shift]: the first segment and the rest; the zero [PathSegment]
    (whose [String()] is ["0"]) for an empty path. *)
Definition Path_Shift (p : Path) : PathSegment * Path :=
  match p with
  | [] => (mkSeg "" 0, [])
  | seg :: rest => (seg, rest)
  end.

Section UrlPath.
(** [cid.Parse] of go-cid (multibase decoding and CID validation). *)
Variable CidParse : string -> option Cid.

(** [ParseUrlPath]. *)
Definition ParseUrlPath (urlPath : string) : (Cid * Path) + UrlPathError :=
  let '(seg, path) := Path_Shift (ParsePath urlPath) in
  if negb (String.eqb (PathSegment_String seg) "ipfs") then inr ErrPathNotFound
  else
    match path with
    | [] => inr ErrPathNotFound
    | _ =>
        let '(cidSeg, path) := Path_Shift path in
        match CidParse (PathSegment_String cidSeg) with
        | None => inr ErrBadCid
        | Some rootCid => inl (rootCid, path)
        end
    end.
End UrlPath.

(** [ContentType.WithDuplicates]. *)
Definition WithDuplicates (ct : ContentType) (duplicates : bool) : ContentType :=
  mkContentType (MimeType ct) (Order ct) duplicates (Quality ct).

Section Render.
(** [strconv.FormatFloat(float64(q), 'g', 3, 32)]: the float formatting is
    not modelled. *)
Variable FormatFloat : Float32 -> string.

(** [ContentType.String]. *)
Definition ContentType_String (ct : ContentType) : string :=
  MimeType ct
  ++ (if String.eqb (MimeType ct) MimeTypeCar then
        ";version=" ++ MimeTypeCarVersion ++ ";order=" ++ Order ct
        ++ (if CTDuplicates ct then ";dups=y" else ";dups=n")
      else "")
  ++ (if f32_lt (Quality ct) (FNum 1) && f32_le (FNum 0) (Quality ct)
      then ";q=" ++ FormatFloat (Quality ct) else "").

(** [ResponseContentTypeHeader]. *)
Definition ResponseContentTypeHeader (duplicates : bool) : string :=
  ContentType_String (WithDuplicates DefaultContentType duplicates).
End Render.

End HttpParse.

(* ------------------------------------------------------------------ *)
(** ** Reference definitions for the error-capturing reader *)

(** The same loads through the bare read-opener, without the capture. *)
Fixpoint run_inner {St} (sro : Cid -> St -> Traversal.LoadResult * St) (ls : list Cid) (st : St)
  : option (list Traversal.LoadResult * St) :=
  match ls with
  | [] => Some ([], st)
  | l :: rest =>
      let '(r, st) := sro l st in
      match r with
      | Traversal.LPanic => None
      | _ => match run_inner sro rest st with
             | Some (rs, st) => Some (r :: rs, st)
             | None => None
             end
      end
  end.

(** The error of the last failing load, or [c] when none failed. *)
Definition last_error (rs : list Traversal.LoadResult) (c : option Traversal.Err)
  : option Traversal.Err :=
  fold_left (fun acc r => match r with Traversal.LErr e => Some e | _ => acc end) rs c.

(** The first error among the loads, or [c] when none failed. *)
Definition first_error (rs : list Traversal.LoadResult) (c : option Traversal.Err)
  : option Traversal.Err :=
  match c with
  | Some e => Some e
  | None => fold_right (fun r acc => match r with Traversal.LErr e => Some e | _ => acc end) None rs
  end.

(** Counting the loads of a walk against the CIDs already seen: a load is
    a duplicate when its CID was loaded before. *)
Fixpoint dup_count (seen : list Cid) (ls : list Cid) : nat :=
  match ls with
  | [] => 0
  | l :: rest =>
      if Traversal.memb l seen then S (dup_count seen rest)
      else dup_count (l :: seen) rest
  end.

(** The total size of the data of a list of blocks. *)
Definition blocks_bytes (bs : list Traversal.Block) : nat :=
  fold_right (fun b n => (List.length (Traversal.blk_data b) + n)%nat) 0%nat bs.

Fixpoint new_count (seen : list Cid) (ls : list Cid) : nat :=
  match ls with
  | [] => 0
  | l :: rest =>
      if Traversal.memb l seen then new_count seen rest
      else S (new_count (l :: seen) rest)
  end.

(** [unwrap_chain e e']: [e'] is [e] or is reached from it by calls of
    [errors.Unwrap], which only unwraps the single-error wrapping of
    [fmt.Errorf] ([multierr]'s errors have [Unwrap() []error] instead). *)
Inductive unwrap_chain : Traversal.Err -> Traversal.Err -> Prop :=
| chain_here (e : Traversal.Err) : unwrap_chain e e
| chain_next (msg : string) (inner e' : Traversal.Err) :
    unwrap_chain inner e' -> unwrap_chain (Traversal.ErrWrap msg inner) e'.

(* ------------------------------------------------------------------ *)
(** ** The Etag pre-image as the specification lists it *)

(** The byte string hashed for the Etag, written from the specification's
    six-item list: ["/ipfs/" + root], then ["/" + canonical path] for a
    non-empty path, then the NUL-prefixed scope, range, order and dups
    segments when they are not the default. *)
Definition etag_preimage_spec (r : Request) (order : string) : string :=
  "/ipfs/" ++ Cid_String (Root r)
  ++ (if String.eqb (ReqPath r) "" then ""
      else "/" ++ Path_String (ParsePath (ReqPath r)))
  ++ (if String.eqb (Scope r) DagScopeAll then "" else nul ++ "scope=" ++ Scope r)
  ++ match Bytes r with
     | Some b =>
         if IsDefault (Some b) then ""
         else nul ++ "range=" ++ FormatInt (From b) 10
              ++ match To b with None => "" | Some t => "," ++ FormatInt t 10 end
     | None => ""
     end
  ++ (if String.eqb order "" || String.eqb order "dfs" then ""
      else nul ++ "order=" ++ order)
  ++ (if Duplicates r then nul ++ "dups=y" else "").

(* ------------------------------------------------------------------ *)
(** ** Character classes of the decimal forms *)

(** A character [strconv] writes for a decimal digit. *)
Definition is_digit (c : ascii) : Prop := exists d, 0 <= d < 10 /\ c = digit_char d.

(** A string in which the separator [sep] does not occur. *)
Definition no_char (sep : ascii) (s : string) : Prop :=
  Forall (fun c => Ascii.eqb c sep = false) (list_ascii_of_string s).

(* ================================================================== *)
(** * Theorems *)

Lemma seg_eqb_spec (a b : PathSegment) : seg_eqb a b = true <-> a = b.
Proof.
  destruct a as [sa ia], b as [sb ib]; unfold seg_eqb; simpl.
  rewrite andb_true_iff, String.eqb_eq, Z.eqb_eq.
  split; [intros [-> ->]; reflexivity | intros H; inversion H; auto].
Qed.

(** General shape of the entity byte-range selector: the terminal is
    replaced by the interpret-as union, with [selector_to] as the end. *)
Lemma Selector_entity_range_shape (r : Request) (b : ByteRange) :
  Scope r = DagScopeEntity -> Bytes r = Some b -> IsDefault (Some b) = false ->
  Request_Selector r =
    Some (UnixFSPathSelectorBuilder (ReqPath r)
            (ExploreInterpretAs "unixfs"
               (ExploreUnion
                  [MatcherSubset (From b) (selector_to b);
                   ExploreRecursive (RecursionLimitDepth 1)
                     (ExploreAll ExploreRecursiveEdge)])) false).
Proof.
  intros Hs Hb Hd. unfold Request_Selector. rewrite Hs, Hb, Hd. reflexivity.
Qed.

Lemma selector_to_cases (b : ByteRange) :
  (To b = None -> selector_to b = MaxInt64) /\
  (forall t, To b = Some t -> 0 <= t < MaxInt64 -> selector_to b = t + 1) /\
  (forall t, To b = Some t -> t < 0 -> selector_to b = t).
Proof.
  unfold selector_to; repeat split.
  - intros ->; reflexivity.
  - intros t -> Ht. replace (t >=? 0) with true by (symmetry; apply Z.geb_le; lia).
    unfold wrap64, two64, MaxInt64 in *.
    rewrite Z.mod_small by lia. lia.
  - intros t -> Ht. replace (t >=? 0) with false by (symmetry; rewrite Z.geb_leb; apply Z.leb_gt; lia).
    reflexivity.
Qed.

(** C1 (code_bug): for an entity request with the non-negative end
    [to = MaxInt64], [to++] wraps around, and the subset matcher's exclusive
    end is [MinInt64] instead of [to + 1]. *)
Theorem Selector_entity_to_MaxInt64_wraps :
  Request_Selector (mkRequest testCidV0 "" DagScopeEntity
                      (Some (mkByteRange 0 (Some MaxInt64))) false)
  = Some (ExploreInterpretAs "unixfs"
            (ExploreUnion
               [MatcherSubset 0 MinInt64;
                ExploreRecursive (RecursionLimitDepth 1) (ExploreAll ExploreRecursiveEdge)]))
  /\ MinInt64 <> MaxInt64 + 1.
Proof. split; [vm_compute; reflexivity | unfold MinInt64, MaxInt64; lia]. Qed.

(** C10: a nil [ByteRange] is the default range, its string form is
    ["0:*"], and [UrlPath], [Etag] and [Selector] never dereference a nil
    range, whatever the request's [Bytes]. *)
Theorem nil_ByteRange_safe :
  IsDefault None = true /\ ByteRange_String None = Some "0:*" /\
  (forall (r : Request) (order : string),
     Request_UrlPath r <> None /\ Request_Etag r order <> None /\ Request_Selector r <> None).
Proof.
  split; [reflexivity | split; [reflexivity |]].
  intros r order.
  unfold Request_UrlPath, Request_Etag, etag_writes, Request_Selector, ByteRange_String, deref.
  destruct (Bytes r) as [b|];
    cbn -[IsDefault XXH.Sum64 FormatUint FormatInt Cid_String PathEscape
          UnixFSPathSelectorBuilder ParsePath Path_String bytes_of_string];
    [destruct (IsDefault (Some b)) |];
    cbn -[XXH.Sum64 FormatUint FormatInt Cid_String PathEscape
          UnixFSPathSelectorBuilder ParsePath Path_String bytes_of_string];
    rewrite ?andb_false_r; repeat split;
    repeat match goal with
           | |- context [if ?c then _ else _] => destruct c
           end; discriminate.
Qed.

Module TraversalFacts.
Import Traversal.

(** C5: [CheckPath expected last] fails exactly when [expected] is not a
    segment-wise prefix of [last]; a longer [last] is fine and an empty
    [expected] always passes. *)
Theorem CheckPath_fails_iff_not_prefix :
  (forall expected last : Path,
     CheckPath expected last <> None <-> ~ (exists rest, last = (expected ++ rest)%list)) /\
  (forall last : Path, CheckPath [] last = None).
Proof.
  split; [| reflexivity].
  induction expected as [| seg erest IH]; intros last; simpl.
  - split; [intros H; contradiction | intros H; exfalso; apply H; exists last; reflexivity].
  - destruct last as [| lseg lrest].
    + split; [intros _ [rest Hr]; discriminate | intros _; discriminate].
    + destruct (seg_eqb seg lseg) eqn:E; simpl.
      * apply seg_eqb_spec in E; subst lseg.
        rewrite IH. split; intros H Hc; apply H.
        -- destruct Hc as [rest Hr]; exists rest; inversion Hr; reflexivity.
        -- destruct Hc as [rest Hr]; exists rest; rewrite Hr; reflexivity.
      * split; [intros _ [rest Hr] | intros _; discriminate].
        inversion Hr; subst.
        assert (seg_eqb seg seg = true) by (apply seg_eqb_spec; reflexivity).
        congruence.
Qed.

(** C9: whenever [VerifyCar] or [VerifyBlockStream] returns an error, the
    [TraversalResult] returned with it is the zero value. *)
Theorem verify_error_zero_result :
  forall (cfg : Config) (car : Car) (lsys : Store) (w : Walk)
         (res : TraversalResult) (e : Err),
  (VerifyCar cfg car lsys w = Some (res, Some e) -> res = zeroResult) /\
  (VerifyBlockStream cfg (car_blocks car) lsys w = Some (res, Some e) -> res = zeroResult).
Proof.
  intros cfg car lsys w res e.
  assert (Hvbs : forall bs, VerifyBlockStream cfg bs lsys w = Some (res, Some e) -> res = zeroResult).
  { intros bs H. unfold VerifyBlockStream in H.
    destruct (Traverse cfg w (mkOpener [] bs lsys zeroTracker)) as [[r st]|]; [| discriminate].
    destruct r as [lastPath | err].
    - destruct (Next (stream st)) as [[blk | err] rest].
      + inversion H; reflexivity.
      + destruct (negb (errors_Is err "EOF")); inversion H; reflexivity.
    - inversion H; reflexivity. }
  split; [| apply Hvbs].
  intros H. unfold VerifyCar in H.
  destruct (car_header car) as [h | err]; [| inversion H; reflexivity].
  destruct (_ || _)%bool; [| inversion H; reflexivity].
  destruct (_ && _)%bool; [inversion H; reflexivity | apply (Hvbs _ H)].
Qed.

End TraversalFacts.

Module CaptureFacts.
Import Traversal.

Lemma ecr_loads_spec {St} (sro : Cid -> St -> LoadResult * St) (ls : list Cid) :
  forall st c,
  ecr_loads sro ls (mkECR st c) =
  match run_inner sro ls st with
  | Some (rs, st') => Some (rs, mkECR st' (last_error rs c))
  | None => None
  end.
Proof.
  induction ls as [| l rest IH]; intros st c; [reflexivity |].
  simpl. unfold ecr_StorageReadOpener. simpl.
  destruct (sro l st) as [r st1]; simpl.
  destruct r as [data | e |]; simpl; try reflexivity;
    rewrite IH; destruct (run_inner sro rest st1) as [[rs st2]|]; reflexivity.
Qed.

(** C8 (corrected): two failing loads in a row leave the second error in the
    cell, not the first. *)
Lemma ecr_cell_not_first_error :
  let sro := fun (l : Cid) (u : unit) => (LErr (ErrNotFound l), u) in
  let c2 := mkCid 1 85 [18; 1; 2] in
  ecr_loads sro [testCidV0; c2] (mkECR tt None)
    = Some ([LErr (ErrNotFound testCidV0); LErr (ErrNotFound c2)],
            mkECR tt (Some (ErrNotFound c2)))
  /\ first_error [LErr (ErrNotFound testCidV0); LErr (ErrNotFound c2)] None
     = Some (ErrNotFound testCidV0)
  /\ ErrNotFound c2 <> ErrNotFound testCidV0.
Proof.
  simpl. split; [reflexivity | split; [reflexivity | discriminate]].
Qed.

(** C8 (as amended): through the error-capturing reader, every load returns
    exactly what the wrapped read-opener returns, and the shared cell ends
    up holding the error of the last failing load (each error overwrites
    the previous one; successful loads leave it unchanged). *)
Theorem ecr_cell_holds_last_error :
  forall (St : Type) (sro : Cid -> St -> LoadResult * St) (ls : list Cid) (st : St)
         (c : option Err),
  ecr_loads sro ls (mkECR st c) =
  match run_inner sro ls st with
  | Some (rs, st') => Some (rs, mkECR st' (last_error rs c))
  | None => None
  end.
Proof. intros St sro ls st c. apply ecr_loads_spec. Qed.

End CaptureFacts.

Module ReadFacts.
Import Traversal.

(** C3: reading the next block for an expected CID. At the end of the
    stream the error is not-found for that CID, and a not-found error under
    any number of wrappings is turned into [ErrMissingBlock] by the
    verifier; a block whose multihash differs is [ErrUnexpectedBlock]; a
    block with the same multihash is accepted whatever its codec. *)
Theorem readNextBlock_outcomes :
  (forall (bs : list StreamItem) (expected : Cid),
     (bs = [] \/ exists e rest, bs = SErr e :: rest /\ errors_Is e "EOF" = true) ->
     fst (readNextBlock bs expected) = inr (ErrNotFound expected)) /\
  (forall (msgs : list string) (c : Cid),
     traversalError (fold_right ErrWrap (ErrNotFound c) msgs)
       = ErrCombine [ErrMissingBlock; ErrNotFound c] /\
     errors_Is (traversalError (fold_right ErrWrap (ErrNotFound c) msgs))
       "missing block in CAR" = true) /\
  (forall (blk : Block) (rest : list StreamItem) (expected : Cid),
     Cid_Hash (blk_cid blk) <> Cid_Hash expected ->
     exists e, fst (readNextBlock (SBlock blk :: rest) expected) = inr e /\
               errors_Is e "unexpected block in CAR" = true) /\
  (forall (blk : Block) (rest : list StreamItem) (expected : Cid),
     Cid_Hash (blk_cid blk) = Cid_Hash expected ->
     fst (readNextBlock (SBlock blk :: rest) expected) = inl (blk_data blk)).
Proof.
  split; [| split; [| split]].
  - intros bs expected [-> | [e [rest [-> He]]]]; [reflexivity |].
    unfold readNextBlock; simpl. rewrite He. reflexivity.
  - intros msgs c.
    assert (H : forall orig, traversalError_loop (fold_right ErrWrap (ErrNotFound c) msgs) orig
                             = ErrCombine [ErrMissingBlock; ErrNotFound c]).
    { induction msgs as [| m ms IH]; intros orig; [reflexivity | apply IH]. }
    unfold traversalError. rewrite H. split; reflexivity.
  - intros blk rest expected Hne.
    unfold readNextBlock, same_multihash, list_Z_eqb; simpl.
    destruct (list_eq_dec Z.eq_dec (Cid_Hash (blk_cid blk)) (Cid_Hash expected)); [contradiction |].
    eexists; split; reflexivity.
  - intros blk rest expected Heq.
    unfold readNextBlock, same_multihash, list_Z_eqb; simpl.
    destruct (list_eq_dec Z.eq_dec (Cid_Hash (blk_cid blk)) (Cid_Hash expected)); [reflexivity | contradiction].
Qed.

End ReadFacts.

Module CountFacts.
Import Traversal.

Lemma cid_eqb_spec (a b : Cid) : cid_eqb a b = true <-> a = b.
Proof.
  destruct a as [va ca ha], b as [vb cb hb]; unfold cid_eqb, list_Z_eqb; simpl.
  rewrite !andb_true_iff, !Z.eqb_eq.
  destruct (list_eq_dec Z.eq_dec ha hb) as [-> | Hne].
  - split; [intros [[-> ->] _]; reflexivity | intros H; inversion H; auto].
  - split; [intros [_ H]; discriminate | intros H; inversion H; contradiction].
Qed.

Lemma memb_In (c : Cid) (l : list Cid) : memb c l = true <-> In c l.
Proof.
  unfold memb. rewrite existsb_exists. split.
  - intros [x [Hx He]]. apply cid_eqb_spec in He. subst; assumption.
  - intros H. exists c. split; [assumption | apply cid_eqb_spec; reflexivity].
Qed.

Lemma dup_count_zero (ls : list Cid) :
  forall seen, dup_count seen ls = 0%nat <-> NoDup ls /\ (forall x, In x ls -> ~ In x seen).
Proof.
  induction ls as [| l rest IH]; intros seen; simpl.
  - split; [intros _; split; [constructor | intros x []] | reflexivity].
  - destruct (memb l seen) eqn:E.
    + split; [discriminate |].
      intros [_ H]. apply memb_In in E. exfalso. apply (H l); [left |]; auto.
    + rewrite IH. split.
      * intros [Hnd Hx]. split.
        -- constructor; [| assumption]. intros Hin. apply (Hx l Hin). left; reflexivity.
        -- intros x [<- | Hin]; [| intros Hs; apply (Hx x Hin); right; assumption].
           intros Hs. apply memb_In in Hs. congruence.
      * intros [Hnd Hx]. inversion Hnd; subst. split; [assumption |].
        intros x Hin [<- | Hs]; [contradiction | apply (Hx x); [right |]; assumption].
Qed.

Lemma last_error_some (rs : list LoadResult) (e : Err) : last_error rs (Some e) <> None.
Proof.
  unfold last_error. revert e.
  induction rs as [| r rest IH]; intros e; simpl; [discriminate |].
  destruct r; apply IH.
Qed.

(** A write that succeeds returns the block and changes only the store and
    the outgoing counters. *)
Lemma write_out_ok (st st' : OpenerState) (c : Cid) (data d : list Z) :
  write_out st c data = (LOk d, st') ->
  d = data /\ seen st' = seen st /\ stream st' = stream st /\
  tracker st' = recordBlockOut (tracker st) data.
Proof.
  unfold write_out. destruct (store_write (store st) c data) as [[e |] s'];
    intros H; [discriminate | injection H as <- <-; repeat split].
Qed.

Ltac opener_case H :=
  first [ apply write_out_ok in H; destruct H as [_ [-> [_ ->]]]
        | inversion H; subst ]; simpl; repeat split; lia.

(** One successful call of the read-opener. *)
Lemma opener_step (cfg : Config) (c : Cid) (st st' : OpenerState) (d : list Z) :
  nextBlockReadOpener cfg c st = (LOk d, st') ->
  if memb c (seen st) then
    seen st' = seen st /\
    blocksIn (tracker st') = (blocksIn (tracker st) + (if ExpectDuplicatesIn cfg then 1 else 0))%nat /\
    blocksOut (tracker st') = (blocksOut (tracker st) + (if WriteDuplicatesOut cfg then 1 else 0))%nat
  else
    seen st' = c :: seen st /\
    blocksIn (tracker st') = S (blocksIn (tracker st)) /\
    blocksOut (tracker st') = S (blocksOut (tracker st)).
Proof.
  unfold nextBlockReadOpener.
  destruct (memb c (seen st)) eqn:Hm.
  - destruct (ExpectDuplicatesIn cfg), (WriteDuplicatesOut cfg); simpl.
    + destruct (readNextBlock (stream st) c) as [[data | e] bs]; intros H; opener_case H.
    + destruct (readNextBlock (stream st) c) as [[data | e] bs]; intros H; opener_case H.
    + destruct (store_get (store st) c) as [data | e]; intros H; opener_case H.
    + destruct (store_get (store st) c) as [data | e]; intros H; opener_case H.
  - simpl. destruct (readNextBlock (stream st) c) as [[data | e] bs]; intros H; opener_case H.
Qed.

(** A run of successful loads adds its new CIDs to both counters and its
    duplicates to the counters the two policies select. *)
Lemma run_counts (cfg : Config) (ls : list Cid) :
  forall st rs st' c,
  run_inner (nextBlockReadOpener cfg) ls st = Some (rs, st') ->
  last_error rs c = None ->
  blocksIn (tracker st') = (blocksIn (tracker st) + new_count (seen st) ls
     + (if ExpectDuplicatesIn cfg then dup_count (seen st) ls else 0))%nat /\
  blocksOut (tracker st') = (blocksOut (tracker st) + new_count (seen st) ls
     + (if WriteDuplicatesOut cfg then dup_count (seen st) ls else 0))%nat.
Proof.
  induction ls as [| l rest IH]; intros st rs st' c Hrun Hle.
  - simpl in Hrun. inversion Hrun; subst. simpl.
    destruct (ExpectDuplicatesIn cfg), (WriteDuplicatesOut cfg); split; lia.
  - simpl in Hrun.
    destruct (nextBlockReadOpener cfg l st) as [r st1] eqn:Hop.
    destruct r as [d | e |]; [| | discriminate].
    + destruct (run_inner (nextBlockReadOpener cfg) rest st1) as [[rs1 st2]|] eqn:Hr;
        [| discriminate].
      inversion Hrun; subst rs st'.
      unfold last_error in Hle; simpl in Hle; fold (last_error rs1 c) in Hle.
      destruct (IH st1 rs1 st2 c Hr Hle) as [Hin Hout].
      apply opener_step in Hop. simpl.
      destruct (memb l (seen st)) eqn:Hm; destruct Hop as [Hs [Hi Ho]];
        rewrite Hs in Hin, Hout; rewrite Hin, Hout, Hi, Ho;
        destruct (ExpectDuplicatesIn cfg), (WriteDuplicatesOut cfg); split; lia.
    + destruct (run_inner (nextBlockReadOpener cfg) rest st1) as [[rs1 st2]|];
        [| discriminate].
      inversion Hrun; subst rs st'.
      unfold last_error in Hle; simpl in Hle; fold (last_error rs1 (Some e)) in Hle.
      exfalso; exact (last_error_some rs1 e Hle).
Qed.

End CountFacts.

Module BalanceFacts.
Import Traversal CountFacts.

(** C2: for a stream that verifies, the blocks read in and the blocks
    written out are equal exactly when the walk loads no CID twice or the
    two duplicate policies agree. *)
Theorem verify_counts_balanced :
  forall (cfg : Config) (bs : list StreamItem) (lsys : Store) (w : Walk)
         (res : TraversalResult),
  VerifyBlockStream cfg bs lsys w = Some (res, None) ->
  (BlocksIn res = BlocksOut res <->
   NoDup (CfgRoot cfg :: walk_loads w) \/ ExpectDuplicatesIn cfg = WriteDuplicatesOut cfg).
Proof.
  intros cfg bs lsys w res H.
  unfold VerifyBlockStream in H.
  destruct (Traverse cfg w (mkOpener [] bs lsys zeroTracker)) as [[r st]|] eqn:HT;
    [| discriminate].
  destruct r as [lastPath | e]; [| discriminate].
  destruct (Next (stream st)) as [[blk | e] rest]; [discriminate |].
  destruct (negb (errors_Is e "EOF")); [discriminate |].
  inversion H; subst res; clear H; simpl.
  unfold Traverse, ecr_StorageReadOpener in HT.
  destruct (walk_compile_err w); [discriminate |].
  destruct (walk_setup_err w); [discriminate |]. simpl in HT.
  destruct (nextBlockReadOpener cfg (CfgRoot cfg) (mkOpener [] bs lsys zeroTracker))
    as [r0 st1] eqn:Hroot.
  destruct r0 as [d | e0 |]; simpl in HT; try discriminate.
  destruct (walk_root_err w); [discriminate |].
  rewrite CaptureFacts.ecr_loads_spec in HT.
  destruct (run_inner (nextBlockReadOpener cfg) (walk_loads w) st1) as [[rs st2]|] eqn:Hrun;
    [| discriminate].
  destruct (walk_err w); [discriminate |].
  simpl in HT. destruct (last_error rs None) eqn:Hle; [discriminate |].
  inversion HT; subst st; clear HT.
  apply opener_step in Hroot; simpl in Hroot.
  destruct Hroot as [Hs [Hi Ho]].
  destruct (run_counts cfg (walk_loads w) st1 rs st2 None Hrun Hle) as [Hin Hout].
  rewrite Hin, Hout, Hi, Ho, Hs.
  pose proof (dup_count_zero (CfgRoot cfg :: walk_loads w) []) as Hz.
  simpl in Hz.
  destruct (ExpectDuplicatesIn cfg), (WriteDuplicatesOut cfg); simpl;
    split; intros Hq; try (right; reflexivity); try lia;
    try (destruct Hq as [Hq | Hq]; [| discriminate]);
    try (left; apply Hz; lia);
    try (assert (dup_count [CfgRoot cfg] (walk_loads w) = 0%nat)
           by (apply Hz; split; [assumption | intros x _ []]); lia).
Qed.

End BalanceFacts.

Module EtagFacts.

Lemma str_append_assoc (a b c : string) : (a ++ b) ++ c = a ++ (b ++ c).
Proof. induction a as [|x a IH]; simpl; [reflexivity | now rewrite IH]. Qed.

Lemma str_append_nil_r (a : string) : a ++ "" = a.
Proof. induction a as [|x a IH]; simpl; [reflexivity | now rewrite IH]. Qed.

Lemma concat_empty_cons (x : string) (l : list string) :
  String.concat "" (x :: l) = x ++ String.concat "" l.
Proof. destruct l; simpl; [now rewrite str_append_nil_r | reflexivity]. Qed.

Lemma concat_empty_app (l1 l2 : list string) :
  String.concat "" (l1 ++ l2) = String.concat "" l1 ++ String.concat "" l2.
Proof.
  induction l1 as [|x l1 IH]; [reflexivity |].
  rewrite <- app_comm_cons, !concat_empty_cons, IH, str_append_assoc; reflexivity.
Qed.

(** C4: every request's Etag is the weak tag [W/"<root>.car.<suffix>"] whose
    suffix is the base-32 form of the xxhash64 of exactly the byte string the
    specification lists; for the root testV0 with scope all and order dfs it
    is [W/"QmVXsSVjwxMsCwKRCUxEkGb4f4B98gXVy3ih3v4otvcURK.car.8it8cu7ifb381"]. *)
Theorem Etag_form :
  (forall (r : Request) (order : string),
     Request_Etag r order =
     Some ("W/" ++ dquote ++ Cid_String (Root r) ++ ".car."
           ++ FormatUint (XXH.Sum64 (bytes_of_string (etag_preimage_spec r order))) 32
           ++ dquote)) /\
  Request_Etag (mkRequest testCidV0 "" DagScopeAll None false) "dfs" =
  Some ("W/" ++ dquote ++ "QmVXsSVjwxMsCwKRCUxEkGb4f4B98gXVy3ih3v4otvcURK.car.8it8cu7ifb381"
        ++ dquote).
Proof.
  split; [| vm_compute; reflexivity].
  intros r order.
  unfold Request_Etag, etag_writes, etag_preimage_spec.
  assert (Hr : forall b : option ByteRange,
    (if negb (IsDefault b) then
       let* b0 := deref b in
       Some ([(nul ++ "range=")%string; FormatInt (From b0) 10]
             ++ match To b0 with None => [] | Some t => [","; FormatInt t 10] end)%list
     else Some []) =
    Some (if negb (IsDefault b) then
            match b with
            | Some b0 => ([(nul ++ "range=")%string; FormatInt (From b0) 10]
                          ++ match To b0 with None => [] | Some t => [","; FormatInt t 10] end)%list
            | None => [] end
          else [])).
  { intros [b|]; [| reflexivity]. destruct (negb (IsDefault (Some b))); reflexivity. }
  rewrite Hr; cbv beta iota; clear Hr.
  f_equal. f_equal. f_equal. f_equal. f_equal. f_equal. f_equal. f_equal.
  rewrite !concat_empty_app, !concat_empty_cons.
  cbn [String.concat].
  rewrite !str_append_assoc. f_equal. f_equal.
  repeat rewrite <- str_append_assoc.
  destruct (String.eqb (ReqPath r) ""), (String.eqb (Scope r) DagScopeAll),
    (Bytes r) as [b|], (String.eqb order ""), (String.eqb order "dfs"), (Duplicates r);
    try destruct (IsDefault (Some b)); try destruct (To b);
    cbn [negb orb andb String.concat app];
    rewrite ?concat_empty_app, ?concat_empty_cons; cbn [String.concat];
    rewrite ?str_append_nil_r, ?str_append_assoc; reflexivity.
Qed.

End EtagFacts.

Module RangeFacts.

Lemma digit_char_props (d : Z) :
  0 <= d < 10 ->
  digit_val (digit_char d) = Some d /\ Ascii.eqb (digit_char d) ":" = false /\
  Ascii.eqb (digit_char d) "+" = false /\ Ascii.eqb (digit_char d) "-" = false /\
  digit_char d <> "*"%char.
Proof.
  intros Hd.
  assert (d = 0 \/ d = 1 \/ d = 2 \/ d = 3 \/ d = 4 \/ d = 5 \/ d = 6 \/ d = 7 \/ d = 8 \/ d = 9)
    as Hc by lia.
  repeat destruct Hc as [Hc | Hc]; subst d; vm_compute; repeat split; discriminate.
Qed.

Lemma fmt_digits_digits (fuel : nat) :
  forall n acc, 0 <= n -> Forall is_digit acc -> Forall is_digit (fmt_digits 10 fuel n acc).
Proof.
  induction fuel as [|f IH]; intros n acc Hn Hacc; simpl; [assumption |].
  destruct (n <? 10) eqn:Hlt.
  - constructor; [| assumption]. exists n; split; [lia | reflexivity].
  - apply Z.ltb_ge in Hlt. apply IH.
    + apply Z.div_pos; lia.
    + constructor; [| assumption]. exists (n mod 10); split; [apply Z.mod_pos_bound; lia | reflexivity].
Qed.

Lemma fmt_digits_value (fuel : nat) :
  forall n acc, 0 <= n < 10 ^ Z.of_nat fuel ->
  parse_digits (fmt_digits 10 fuel n acc) 0 = parse_digits acc n.
Proof.
  induction fuel as [|f IH]; intros n acc Hn.
  - simpl in Hn. assert (n = 0) by lia. subst n. reflexivity.
  - rewrite Nat2Z.inj_succ, Z.pow_succ_r in Hn by lia.
    simpl. destruct (n <? 10) eqn:Hlt.
    + apply Z.ltb_lt in Hlt.
      destruct (digit_char_props n ltac:(lia)) as [Hv _].
      simpl. rewrite Hv. reflexivity.
    + apply Z.ltb_ge in Hlt.
      rewrite IH.
      * destruct (digit_char_props (n mod 10) ltac:(apply Z.mod_pos_bound; lia)) as [Hv _].
        simpl. rewrite Hv. f_equal.
        pose proof (Z.div_mod n 10). lia.
      * split; [apply Z.div_pos; lia |].
        apply Z.div_lt_upper_bound; lia.
Qed.

Lemma fmt_digits_cons (fuel : nat) :
  forall n x acc, fmt_digits 10 fuel n (x :: acc) <> [].
Proof.
  induction fuel as [|f IH]; intros n x acc; simpl; [discriminate |].
  destruct (n <? 10); [discriminate | apply IH].
Qed.

Lemma fmt_digits_nonempty (f : nat) (n : Z) : fmt_digits 10 (S f) n [] <> [].
Proof. simpl. destruct (n <? 10); [discriminate | apply fmt_digits_cons]. Qed.

(** The decimal digits of a value that fits in 64 bits, as [FormatUint]
    produces them, and what [ParseUint] reads back from them. *)
Lemma FormatUint_digits (n : Z) :
  0 <= n <= 2 ^ 63 ->
  exists c rest, fmt_digits 10 64 n [] = c :: rest /\ Forall is_digit (c :: rest) /\
    ParseUint (c :: rest) = Some n.
Proof.
  intros Hn.
  pose proof (fmt_digits_value 64 n [] ltac:(split; [lia |]; eapply Z.le_lt_trans;
    [apply Hn | vm_compute; reflexivity])) as Hv.
  pose proof (fmt_digits_digits 64 n [] ltac:(lia) ltac:(constructor)) as Hd.
  pose proof (fmt_digits_nonempty 63 n) as Hne.
  destruct (fmt_digits 10 64 n []) as [|c rest]; [contradiction |].
  exists c, rest. repeat split; [assumption |].
  assert (Hb : (n >? two64 - 1) = false).
  { rewrite Z.gtb_ltb; apply Z.ltb_ge. unfold two64.
    eapply Z.le_trans; [apply Hn | apply Z.leb_le; reflexivity]. }
  unfold ParseUint. rewrite Hv. cbn [parse_digits]. rewrite Hb. reflexivity.
Qed.

Lemma ParseInt_FormatInt (x : Z) : in_int64 x -> ParseInt (FormatInt x 10) = Some x.
Proof.
  unfold in_int64, MinInt64, MaxInt64. intros Hx.
  unfold FormatInt, FormatUint.
  destruct (x <? 0) eqn:Hneg.
  - apply Z.ltb_lt in Hneg.
    destruct (FormatUint_digits (- x) ltac:(lia)) as (c & rest & Heq & _ & Hp).
    rewrite Heq. unfold ParseInt. cbn [list_ascii_of_string].
    rewrite list_ascii_of_string_of_list_ascii.
    change (Ascii.eqb "-" "+") with false. change (Ascii.eqb "-" "-") with true.
    cbv beta iota. rewrite Hp. cbn [negb andb].
    assert (Hb : (- x >? 2 ^ 63) = false) by (rewrite Z.gtb_ltb; apply Z.ltb_ge; lia).
    rewrite Hb. f_equal. lia.
  - apply Z.ltb_ge in Hneg.
    destruct (FormatUint_digits x ltac:(lia)) as (c & rest & Heq & Hd & Hp).
    rewrite Heq. unfold ParseInt.
    rewrite list_ascii_of_string_of_list_ascii.
    inversion Hd as [| ? ? [d [Hd0 Hc]] _]; subst c.
    destruct (digit_char_props d Hd0) as (_ & _ & Hplus & Hminus & _).
    rewrite Hplus, Hminus. cbv beta iota. rewrite Hp. cbn [negb andb].
    assert (Hb : (x >=? 2 ^ 63) = false) by (rewrite Z.geb_leb; apply Z.leb_gt; lia).
    rewrite Hb. reflexivity.
Qed.

Lemma FormatInt_no_colon (x : Z) : in_int64 x -> no_char ":" (FormatInt x 10).
Proof.
  unfold in_int64, MinInt64, MaxInt64. intros Hx.
  assert (Hd : forall n, 0 <= n <= 2 ^ 63 ->
            no_char ":" (string_of_list_ascii (fmt_digits 10 64 n []))).
  { intros n Hn. destruct (FormatUint_digits n Hn) as (c & rest & Heq & Hd & _).
    unfold no_char. rewrite Heq, list_ascii_of_string_of_list_ascii.
    eapply Forall_impl; [| exact Hd]. intros a [d [Hd0 ->]].
    apply (digit_char_props d Hd0). }
  unfold FormatInt, FormatUint. destruct (x <? 0) eqn:Hneg.
  - apply Z.ltb_lt in Hneg. unfold no_char. cbn [list_ascii_of_string].
    constructor; [reflexivity |]. apply Hd; lia.
  - apply Z.ltb_ge in Hneg. apply Hd; lia.
Qed.

Lemma FormatInt_not_star (x : Z) : in_int64 x -> String.eqb (FormatInt x 10) "*" = false.
Proof.
  unfold in_int64, MinInt64, MaxInt64. intros Hx.
  unfold FormatInt, FormatUint. destruct (x <? 0) eqn:Hneg; [reflexivity |].
  apply Z.ltb_ge in Hneg.
  destruct (FormatUint_digits x ltac:(lia)) as (c & rest & Heq & Hd & _).
  rewrite Heq. inversion Hd as [| ? ? [d [Hd0 Hc]] _]; subst c.
  destruct (digit_char_props d Hd0) as (_ & _ & _ & _ & Hs).
  apply String.eqb_neq. cbn. intros Habs. injection Habs as Hc _. contradiction.
Qed.

Lemma split_char_none (sep : ascii) (s : string) : no_char sep s -> split_char sep s = [s].
Proof.
  unfold no_char. induction s as [|c s IH]; intros H; [reflexivity |].
  cbn [list_ascii_of_string] in H. inversion H as [| ? ? Hc Hs]; subst.
  simpl. rewrite Hc, IH by assumption. reflexivity.
Qed.

Lemma split_char_app (sep : ascii) (s1 s2 : string) :
  no_char sep s1 -> split_char sep (s1 ++ String sep s2) = s1 :: split_char sep s2.
Proof.
  unfold no_char. induction s1 as [|c s1 IH]; intros H.
  - simpl. rewrite Ascii.eqb_refl. reflexivity.
  - cbn [list_ascii_of_string] in H. inversion H as [| ? ? Hc Hs]; subst.
    simpl. rewrite Hc, IH by assumption. reflexivity.
Qed.

(** C7: a non-default range whose bounds are [int64] values prints to a
    string that [ParseByteRange] reads back as the same range; a default
    range (nil included) prints as ["0:*"], which parses to a default range. *)
Theorem ByteRange_roundtrip :
  (forall br : ByteRange,
     IsDefault (Some br) = false ->
     in_int64 (From br) ->
     match To br with Some t => in_int64 t | None => True end ->
     exists s, ByteRange_String (Some br) = Some s /\ ParseByteRange s = ParsedRange br) /\
  (forall brp : option ByteRange,
     IsDefault brp = true ->
     ByteRange_String brp = Some "0:*" /\
     ParseByteRange "0:*" = ParsedRange (mkByteRange 0 None) /\
     IsDefault (Some (mkByteRange 0 None)) = true).
Proof.
  split.
  - intros [from to] Hdef Hfrom Hto. simpl in Hfrom, Hto.
    unfold ByteRange_String. rewrite Hdef. cbn [deref From To].
    eexists; split; [reflexivity |].
    unfold ParseByteRange.
    assert (Hne : forall a b, String.eqb (a ++ String ":" b) "" = false)
      by (intros [|? ?] ?; reflexivity).
    change (":" ++ ?t) with (String ":" t). rewrite Hne.
    rewrite split_char_app by (apply FormatInt_no_colon; assumption).
    rewrite ParseInt_FormatInt by assumption.
    destruct to as [t|].
    + rewrite split_char_none by (apply FormatInt_no_colon; assumption).
      rewrite FormatInt_not_star, ParseInt_FormatInt by assumption. reflexivity.
    + reflexivity.
  - intros brp Hdef. unfold ByteRange_String. rewrite Hdef.
    split; [reflexivity |]. split; vm_compute; reflexivity.
Qed.

End RangeFacts.

Module FormatFacts.
Import Http.

(** A quality in [[0, 1]] passes [parseContentType]'s range check. *)
Lemma quality_in_range (q : Q) :
  (0 <= q <= 1)%Q -> f32_lt (FNum q) (FNum 0) = false /\ f32_lt (FNum 1) (FNum q) = false.
Proof.
  intros [H0 H1]. cbn [f32_lt].
  destruct (Qlt_le_dec q 0) as [H | _]; [exfalso; exact (Qlt_not_le _ _ H H0) |].
  destruct (Qlt_le_dec 1 q) as [H | _]; [exfalso; exact (Qlt_not_le _ _ H H1) |].
  split; reflexivity.
Qed.

(** C6 fails at the Accept header [car;q=0.5, car;q=NaN, */*;q=0.9] with
    [format=raw], for any float parser that reads "0.5" and "0.9" as
    qualities in [[0, 1]], the first below the second, and "NaN" as NaN. The
    wildcard [*/*] has the highest quality (0.9 is above 0.5, and NaN is
    above nothing), so the format should decide and give the default raw
    content type. But NaN passes the range check ([NaN < 0] and [NaN > 1] are
    both false), and the stable sort, each of whose comparisons with NaN is
    false, leaves the entries in header order: the CAR entry of quality 0.5
    stays first and [CheckFormat] returns the Accept list. *)
Theorem CheckFormat_nan_quality_breaks_precedence :
  forall (PF : string -> option Float32) (q5 q9 : Q),
  PF "0.5" = Some (FNum q5) -> PF "0.9" = Some (FNum q9) -> PF "NaN" = Some FNaN ->
  (0 <= q5)%Q -> (q5 < q9)%Q -> (q9 <= 1)%Q ->
  let accept :=
    "application/vnd.ipld.car;q=0.5, application/vnd.ipld.car;q=NaN, */*;q=0.9" in
  let car q := mkContentType MimeTypeCar ContentTypeOrderDfs true q in
  let wild := mkContentType "*/*" ContentTypeOrderDfs true (FNum q9) in
  (ParseAccept PF accept = [car (FNum q5); car FNaN; wild] /\
   quality_gt wild (car (FNum q5)) = true /\
   CheckFormat PF (mkHttpRequest FormatParameterRaw accept) = inl [car (FNum q5); car FNaN; wild] /\
   CheckFormat PF (mkHttpRequest FormatParameterRaw accept)
   <> inl [WithMimeType DefaultContentType MimeTypeRaw]).
Proof.
  intros PF q5 q9 H5 H9 HN Hq5 Hlt Hq9 accept car wild.
  assert (R5 := quality_in_range q5 (conj Hq5 (Qle_trans _ _ _ (Qlt_le_weak _ _ Hlt) Hq9))).
  assert (R9 := quality_in_range q9 (conj (Qle_trans _ _ _ Hq5 (Qlt_le_weak _ _ Hlt)) Hq9)).
  assert (Hgt : quality_gt wild (car (FNum q5)) = true).
  { unfold quality_gt, wild, car; cbn [Quality f32_lt].
    destruct (Qlt_le_dec q5 q9) as [_ | H]; [reflexivity | exfalso; exact (Qlt_not_le _ _ Hlt H)]. }
  assert (HP : ParseAccept PF accept = [car (FNum q5); car FNaN; wild]).
  { assert (HE : flat_map (fun t => match parseContentType PF t false with
                                     | Some c => [c] | None => [] end)
                    (split_char ","%char accept) = [car (FNum q5); car FNaN; wild]).
    { cbv -[f32_lt]. rewrite H5, H9, HN.
      cbv -[f32_lt]. destruct R5 as [-> ->], R9 as [-> ->]. cbv. reflexivity. }
    unfold ParseAccept. rewrite HE. cbv. reflexivity. }
  split; [exact HP |]. split; [exact Hgt |].
  assert (HC : CheckFormat PF (mkHttpRequest FormatParameterRaw accept)
               = inl [car (FNum q5); car FNaN; wild]).
  { unfold CheckFormat; cbn [QueryFormat AcceptHeader]. rewrite HP. reflexivity. }
  split; [exact HC |]. rewrite HC. discriminate.
Qed.

End FormatFacts.

Module Witnesses.
Import Traversal.

(** Small values are [int64] values. *)
Lemma in_int64_small (z : Z) : -1000 <= z <= 1000 -> in_int64 z.
Proof.
  unfold in_int64, MinInt64, MaxInt64. intros Hz.
  assert (H63 : 1000 <= 2 ^ 63) by (apply Z.leb_le; reflexivity). lia.
Qed.

(** C2 at a concrete input: a walk that loads the link [c1] twice, read
    once from the stream and written out twice. *)
Lemma verify_counts_balanced_witness :
  exists res,
  VerifyBlockStream (mkConfig testCidV0 false false false true)
    [SBlock (mkBlock testCidV0 [1]); SBlock (mkBlock (mkCid 1 85 [18; 2; 7; 7]) [2; 3])] emptyStore
    (mkWalk None None None [mkCid 1 85 [18; 2; 7; 7]; mkCid 1 85 [18; 2; 7; 7]] None []) = Some (res, None) /\
  (BlocksIn res = BlocksOut res <->
   NoDup [testCidV0; mkCid 1 85 [18; 2; 7; 7]; mkCid 1 85 [18; 2; 7; 7]] \/ false = true).
Proof.
  eexists. split; [vm_compute; reflexivity |].
  apply (BalanceFacts.verify_counts_balanced
           (mkConfig testCidV0 false false false true)
           [SBlock (mkBlock testCidV0 [1]); SBlock (mkBlock (mkCid 1 85 [18; 2; 7; 7]) [2; 3])]
           emptyStore (mkWalk None None None [mkCid 1 85 [18; 2; 7; 7]; mkCid 1 85 [18; 2; 7; 7]] None [])).
  vm_compute. reflexivity.
Defined.

(** C3 at concrete inputs: the stream ends with [io.EOF] where a block was
    expected, and a block with the expected multihash is read. *)
Lemma readNextBlock_outcomes_witness :
  ([SErr EOF] = [] \/ exists e rest, [SErr EOF] = SErr e :: rest /\ errors_Is e "EOF" = true) /\
  fst (readNextBlock [SErr EOF] testCidV0) = inr (ErrNotFound testCidV0) /\
  Cid_Hash (mkCid 1 112 (cid_hash testCidV0)) = Cid_Hash testCidV0 /\
  fst (readNextBlock [SBlock (mkBlock (mkCid 1 112 (cid_hash testCidV0)) [1])] testCidV0) = inl [1].
Proof.
  assert (H : [SErr EOF] = [] \/
              exists e rest, [SErr EOF] = SErr e :: rest /\ errors_Is e "EOF" = true)
    by (right; exists EOF, []; split; reflexivity).
  assert (Hh : Cid_Hash (mkCid 1 112 (cid_hash testCidV0)) = Cid_Hash testCidV0)
    by (vm_compute; reflexivity).
  split; [exact H |]. split; [apply (proj1 ReadFacts.readNextBlock_outcomes); exact H |].
  split; [exact Hh |].
  apply (proj2 (proj2 (proj2 ReadFacts.readNextBlock_outcomes))
           (mkBlock (mkCid 1 112 (cid_hash testCidV0)) [1]) [] testCidV0 Hh).
Defined.

(** C9 at a concrete input: the walk loads a link the stream lacks. *)
Lemma verify_error_zero_result_witness :
  exists res e,
  VerifyBlockStream (mkConfig testCidV0 false false false false)
    [SBlock (mkBlock testCidV0 [1])] emptyStore (mkWalk None None None [mkCid 1 85 [18; 2; 7; 7]] None [])
  = Some (res, Some e) /\ res = zeroResult.
Proof.
  do 2 eexists. split; [vm_compute; reflexivity |].
  eapply (proj2 (TraversalFacts.verify_error_zero_result
                  (mkConfig testCidV0 false false false false)
                  (mkCar (inl (mkCarHeader 1 [testCidV0])) [SBlock (mkBlock testCidV0 [1])])
                  emptyStore (mkWalk None None None [mkCid 1 85 [18; 2; 7; 7]] None []) _ _)).
  vm_compute. reflexivity.
Defined.

(** C7 at a concrete input: the range [100:200]. *)
Lemma ByteRange_roundtrip_witness :
  IsDefault (Some (mkByteRange 100 (Some 200))) = false /\ in_int64 100 /\ in_int64 200 /\
  ByteRange_String (Some (mkByteRange 100 (Some 200))) = Some "100:200" /\
  ParseByteRange "100:200" = ParsedRange (mkByteRange 100 (Some 200)).
Proof.
  assert (H1 : IsDefault (Some (mkByteRange 100 (Some 200))) = false) by reflexivity.
  assert (H2 : in_int64 100) by (apply in_int64_small; lia).
  assert (H3 : in_int64 200) by (apply in_int64_small; lia).
  destruct (proj1 RangeFacts.ByteRange_roundtrip (mkByteRange 100 (Some 200)) H1 H2 H3)
    as [s [Hs Hp]].
  assert (Hv : s = "100:200") by (vm_compute in Hs; congruence). subst s.
  exact (conj H1 (conj H2 (conj H3 (conj Hs Hp)))).
Defined.

(** C6 with the decimal parser [ParseDecimal]: the Accept header
    [car;q=0.5, car;q=NaN, */*;q=0.9] with [format=raw] does not give the
    default raw content type. *)
Lemma CheckFormat_nan_quality_breaks_precedence_witness :
  Http.ParseDecimal "0.5" = Some (Http.FNum (5 # 10)) /\
  Http.ParseDecimal "0.9" = Some (Http.FNum (9 # 10)) /\
  Http.ParseDecimal "NaN" = Some Http.FNaN /\
  (0 <= 5 # 10)%Q /\ (5 # 10 < 9 # 10)%Q /\ (9 # 10 <= 1)%Q /\
  Http.CheckFormat Http.ParseDecimal
    (Http.mkHttpRequest Http.FormatParameterRaw
       "application/vnd.ipld.car;q=0.5, application/vnd.ipld.car;q=NaN, */*;q=0.9")
  <> inl [Http.WithMimeType Http.DefaultContentType Http.MimeTypeRaw].
Proof.
  assert (H1 : Http.ParseDecimal "0.5" = Some (Http.FNum (5 # 10))) by (vm_compute; reflexivity).
  assert (H2 : Http.ParseDecimal "0.9" = Some (Http.FNum (9 # 10))) by (vm_compute; reflexivity).
  assert (H3 : Http.ParseDecimal "NaN" = Some Http.FNaN) by (vm_compute; reflexivity).
  assert (H4 : (0 <= 5 # 10)%Q) by (vm_compute; discriminate).
  assert (H5 : (5 # 10 < 9 # 10)%Q) by (vm_compute; reflexivity).
  assert (H6 : (9 # 10 <= 1)%Q) by (vm_compute; discriminate).
  refine (conj H1 (conj H2 (conj H3 (conj H4 (conj H5 (conj H6 _)))))).
  exact (proj2 (proj2 (proj2 (FormatFacts.CheckFormat_nan_quality_breaks_precedence
                                 Http.ParseDecimal _ _ H1 H2 H3 H4 H5 H6)))).
Defined.

End Witnesses.

Module RangeParse.

(** The parse of a printed non-default range (the argument of [RangeFacts]). *)
Lemma range_string_parses (br : ByteRange) :
  IsDefault (Some br) = false -> in_int64 (From br) ->
  match To br with Some t => in_int64 t | None => True end ->
  exists s, ByteRange_String (Some br) = Some s /\ ParseByteRange s = ParsedRange br.
Proof.
  destruct br as [from to]. intros Hdef Hfrom Hto. simpl in Hfrom, Hto.
  unfold ByteRange_String. rewrite Hdef. cbn [deref From To].
  eexists; split; [reflexivity |].
  unfold ParseByteRange.
  assert (Hne : forall a b, String.eqb (a ++ String ":" b) "" = false)
    by (intros [|? ?] ?; reflexivity).
  change (":" ++ ?t) with (String ":" t). rewrite Hne.
  rewrite RangeFacts.split_char_app by (apply RangeFacts.FormatInt_no_colon; assumption).
  rewrite RangeFacts.ParseInt_FormatInt by assumption.
  destruct to as [t|].
  - rewrite RangeFacts.split_char_none by (apply RangeFacts.FormatInt_no_colon; assumption).
    rewrite RangeFacts.FormatInt_not_star, RangeFacts.ParseInt_FormatInt by assumption.
    reflexivity.
  - reflexivity.
Qed.

End RangeParse.

Module QueryFacts.
Import HttpParse.

(** X2: the HTTP [ParseByteRange] returns nil without an [entity-bytes]
    parameter; an empty [entity-bytes=] gives a non-nil range [0:*]; and the
    printed form of a non-default range with [int64] bounds gives that range
    back. *)
Theorem http_ParseByteRange_spec :
  forall q : Values,
  (Values_Has q "entity-bytes" = false -> ParseByteRange q = inl None) /\
  (Values_Has q "entity-bytes" = true -> Values_Get q "entity-bytes" = "" ->
   ParseByteRange q = inl (Some (mkByteRange 0 None))) /\
  (forall br : ByteRange,
     IsDefault (Some br) = false -> in_int64 (From br) ->
     match To br with Some t => in_int64 t | None => True end ->
     Values_Has q "entity-bytes" = true ->
     ByteRange_String (Some br) = Some (Values_Get q "entity-bytes") ->
     ParseByteRange q = inl (Some br)).
Proof.
  intros q. unfold ParseByteRange. split; [| split].
  - intros H; rewrite H; reflexivity.
  - intros H He; rewrite H, He; reflexivity.
  - intros br Hdef Hf Ht Hh Hs. rewrite Hh.
    destruct (RangeParse.range_string_parses br Hdef Hf Ht) as [s [Hs' Hp]].
    rewrite Hs in Hs'. injection Hs' as ->. rewrite Hp. reflexivity.
Qed.

Lemma list_ascii_of_string_app (a b : string) :
  list_ascii_of_string (a ++ b) = (list_ascii_of_string a ++ list_ascii_of_string b)%list.
Proof. induction a as [|c a IH]; simpl; [reflexivity | now rewrite IH]. Qed.

Lemma string_of_list_ascii_app (a b : list ascii) :
  string_of_list_ascii (a ++ b) = string_of_list_ascii a ++ string_of_list_ascii b.
Proof. induction a as [|c a IH]; simpl; [reflexivity | now rewrite IH]. Qed.

(** What [ext_scan] returns is a suffix of what it scanned. *)
Lemma ext_scan_suffix (rl : list ascii) :
  forall suffix, ext_scan rl suffix = [] \/
  exists pre, (rev rl ++ suffix = pre ++ ext_scan rl suffix)%list.
Proof.
  induction rl as [| c rest IH]; intros suffix; simpl; [left; reflexivity |].
  destruct (Ascii.eqb c "/"); [left; reflexivity |].
  destruct (Ascii.eqb c "."); [right; exists (rev rest); rewrite <- app_assoc; reflexivity |].
  destruct (IH (c :: suffix)) as [H | [pre H]]; [left; assumption | right].
  exists pre. rewrite <- app_assoc. exact H.
Qed.

Lemma filepath_Ext_car (s : string) :
  filepath_Ext s = ".car" <-> exists pre, s = pre ++ ".car".
Proof.
  unfold filepath_Ext. split.
  - intros H.
    assert (Hl : ext_scan (rev (list_ascii_of_string s)) [] = list_ascii_of_string ".car").
    { rewrite <- H, list_ascii_of_string_of_list_ascii. reflexivity. }
    destruct (ext_scan_suffix (rev (list_ascii_of_string s)) []) as [He | [pre He]];
      [rewrite He in Hl; discriminate |].
    rewrite rev_involutive, app_nil_r, Hl in He.
    exists (string_of_list_ascii pre).
    rewrite <- (string_of_list_ascii_of_string s), He, string_of_list_ascii_app. reflexivity.
  - intros [pre ->]. rewrite list_ascii_of_string_app, rev_app_distr. reflexivity.
Qed.

(** X3: [ParseFilename] returns [""] without a [filename] parameter, and
    with one it succeeds, returning the (first) name, exactly when the name
    ends in [.car]. *)
Theorem ParseFilename_spec :
  forall (q : Values) (f : string),
  ParseFilename q = inl f <->
  (Values_Has q "filename" = false /\ f = "") \/
  (Values_Has q "filename" = true /\ f = Values_Get q "filename" /\
   exists pre, f = pre ++ ".car").
Proof.
  intros q f. unfold ParseFilename.
  destruct (Values_Has q "filename").
  - cbv zeta. split.
    + intros H. right. split; [reflexivity |].
      destruct (String.eqb (filepath_Ext (Values_Get q "filename")) "") eqn:E1; [discriminate |].
      destruct (String.eqb_spec (filepath_Ext (Values_Get q "filename")) FilenameExtCar)
        as [E2 | E2]; [| discriminate].
      injection H as <-. split; [reflexivity |]. apply filepath_Ext_car. exact E2.
    + intros [[H _] | [_ [-> Hpre]]]; [discriminate |].
      apply filepath_Ext_car in Hpre. rewrite Hpre. reflexivity.
  - split; [intros H; injection H as <-; left; split; reflexivity |].
    intros [[_ ->] | [H _]]; [reflexivity | discriminate].
Qed.

End QueryFacts.

Module GoSortFacts.
Import GoSort.
Local Open Scope nat_scope.

Section Perm.
Context {A : Type}.
Variable dflt : A.
Variable lt : A -> A -> bool.

Lemma upd_perm (l : list A) (i : nat) (x y : A) :
  nth_error l i = Some x -> Permutation (x :: upd l i y) (y :: l).
Proof.
  revert i. induction l as [| z rest IH]; intros [| i] H; cbn in H |- *; try discriminate.
  - injection H as <-. apply perm_swap.
  - etransitivity; [apply perm_swap |].
    etransitivity; [apply perm_skip, (IH i H) |]. apply perm_swap.
Qed.

Lemma nth_error_upd (l : list A) (i j : nat) (x y : A) :
  nth_error l i = Some x -> nth_error l j = Some y -> nth_error (upd l i y) j = Some y.
Proof.
  revert i j. induction l as [| z rest IH]; intros [| i] [| j] Hi Hj; cbn in Hi, Hj |- *;
    try discriminate; try reflexivity; try assumption.
  exact (IH i j Hi Hj).
Qed.

Lemma Swap_perm (l : list A) (i j : nat) : Permutation (Swap l i j) l.
Proof.
  unfold Swap.
  destruct (nth_error l i) as [x |] eqn:Hi; [| reflexivity].
  destruct (nth_error l j) as [y |] eqn:Hj; [| reflexivity].
  pose proof (upd_perm l i x y Hi) as P1.
  pose proof (upd_perm (upd l i y) j y x (nth_error_upd l i j x y Hi Hj)) as P2.
  apply (Permutation_cons_inv (a := y)).
  etransitivity; [exact P2 | exact P1].
Qed.

Lemma perm_if (c : bool) (x y l : list A) :
  Permutation x l -> Permutation y l -> Permutation (if c then x else y) l.
Proof. destruct c; tauto. Qed.

Lemma fold_left_perm {B} (f : list A -> B -> list A) (ks : list B) :
  (forall l k, Permutation (f l k) l) -> forall l, Permutation (fold_left f ks l) l.
Proof.
  intros Hf. induction ks as [| k ks IH]; intros l; cbn; [reflexivity |].
  etransitivity; [apply IH | apply Hf].
Qed.

Lemma insertion_step_perm (fuel a j : nat) (l : list A) :
  Permutation (insertion_step dflt lt fuel a j l) l.
Proof.
  revert j l. induction fuel as [| f IH]; intros j l; cbn [insertion_step]; [reflexivity |].
  destruct (_ && _); [| reflexivity].
  etransitivity; [apply IH | apply Swap_perm].
Qed.

Lemma insertionSort_perm (l : list A) (a b : nat) :
  Permutation (insertionSort dflt lt l a b) l.
Proof.
  unfold insertionSort. apply fold_left_perm. intros; apply insertion_step_perm.
Qed.

Lemma swapRange_perm (l : list A) (a b n : nat) : Permutation (swapRange l a b n) l.
Proof. unfold swapRange. apply fold_left_perm. intros; apply Swap_perm. Qed.

Lemma rotate_loop_perm (fuel m i j : nat) (l : list A) :
  Permutation (snd (rotate_loop fuel m i j l)) l.
Proof.
  revert i j l. induction fuel as [| f IH]; intros i j l; cbn [rotate_loop]; [reflexivity |].
  destruct (i =? j); [reflexivity |].
  destruct (j <? i); (etransitivity; [apply IH | apply swapRange_perm]).
Qed.

Lemma rotate_perm (l : list A) (a m b : nat) : Permutation (rotate l a m b) l.
Proof.
  unfold rotate. pose proof (rotate_loop_perm (b - a) m (m - a) (b - m) l) as H.
  destruct (rotate_loop (b - a) m (m - a) (b - m) l) as [i l']. cbn in H.
  etransitivity; [apply swapRange_perm | exact H].
Qed.

Lemma symMerge_perm (fuel : nat) (l : list A) (a m b : nat) :
  Permutation (symMerge dflt lt fuel l a m b) l.
Proof.
  revert l a m b. induction fuel as [| f IH]; intros l a m b; cbn [symMerge]; [reflexivity |].
  destruct (m - a =? 1).
  { apply fold_left_perm. intros; apply Swap_perm. }
  destruct (b - m =? 1).
  { apply fold_left_perm. intros; apply Swap_perm. }
  destruct (if (a + b) / 2 <? m then _ else _) as [start r].
  cbv zeta.
  repeat match goal with
         | |- Permutation (if _ then _ else _) _ => apply perm_if
         | |- Permutation (symMerge _ _ _ _ _ _ _) _ => etransitivity; [apply IH |]
         | |- Permutation (rotate _ _ _ _) _ => etransitivity; [apply rotate_perm |]
         | |- Permutation ?l ?l => reflexivity
         end.
Qed.

Lemma merge_rounds_perm (fuel blockSize n : nat) (l : list A) :
  Permutation (merge_rounds dflt lt fuel blockSize n l) l.
Proof.
  revert blockSize l. induction fuel as [| f IH]; intros bs l; cbn [merge_rounds]; [reflexivity |].
  destruct (bs <? n); [| reflexivity].
  cbv zeta. etransitivity; [apply IH |].
  match goal with
  | |- Permutation (if ?c then symMerge _ _ _ ?l0 _ _ _ else _) _ =>
      assert (H0 : Permutation l0 l) by (apply fold_left_perm; intros; apply symMerge_perm);
      destruct c; [etransitivity; [apply symMerge_perm | exact H0] | exact H0]
  end.
Qed.

(** [sort.SliceStable] only swaps: it returns a permutation of the slice. *)
Lemma SliceStable_perm (l : list A) : Permutation (SliceStable dflt lt l) l.
Proof.
  unfold SliceStable, stable. cbv zeta.
  etransitivity; [apply merge_rounds_perm |].
  etransitivity; [apply insertionSort_perm |].
  apply fold_left_perm. intros; apply insertionSort_perm.
Qed.

End Perm.
End GoSortFacts.

Module ContentTypeFacts.
Import Http HttpParse.

(** X4: a CAR content type with order [dfs] or [unk], and a quality for
    which [q < 1 && q >= 0] is false in Go (so no [q] is printed: 1, a
    negative value, or NaN), parses back, strictly, to itself with quality
    1; a raw content type with such a quality parses back to the raw type
    with the default order and duplicates (its own are not printed); and the
    [ResponseContentTypeHeader] for either duplicates flag parses back to the
    default content type with that flag. *)
Theorem ContentType_String_roundtrip :
  forall (FF : Float32 -> string) (PF : string -> option Float32),
  (forall ct : ContentType,
     MimeType ct = MimeTypeCar ->
     (Order ct = ContentTypeOrderDfs \/ Order ct = ContentTypeOrderUnk) ->
     f32_lt (Quality ct) (FNum 1) && f32_le (FNum 0) (Quality ct) = false ->
     ParseContentType PF (ContentType_String FF ct)
     = Some (mkContentType MimeTypeCar (Order ct) (CTDuplicates ct) (FNum 1))) /\
  (forall ct : ContentType,
     MimeType ct = MimeTypeRaw ->
     f32_lt (Quality ct) (FNum 1) && f32_le (FNum 0) (Quality ct) = false ->
     ParseContentType PF (ContentType_String FF ct)
     = Some (mkContentType MimeTypeRaw ContentTypeOrderDfs true (FNum 1))) /\
  (forall d : bool,
     ParseContentType PF (ResponseContentTypeHeader FF d)
     = Some (WithDuplicates DefaultContentType d)).
Proof.
  intros FF PF. split; [| split].
  - intros [m o d q] Hm Ho Hq; cbn [MimeType Order CTDuplicates Quality] in *; subst m.
    unfold ContentType_String; cbn [MimeType Order CTDuplicates Quality].
    rewrite Hq.
    destruct Ho as [-> | ->]; destruct d; vm_compute; reflexivity.
  - intros [m o d q] Hm Hq; cbn [MimeType Order CTDuplicates Quality] in *; subst m.
    unfold ContentType_String; cbn [MimeType Order CTDuplicates Quality].
    rewrite Hq. vm_compute. reflexivity.
  - intros []; vm_compute; reflexivity.
Qed.

(** The qualities [parseContentType] lets through: a value in [[0, 1]], or
    NaN, for which both comparisons of its range check are false. *)
Definition quality_ok (q : Float32) : Prop :=
  (exists r, q = FNum r /\ (0 <= r <= 1)%Q) \/ q = FNaN.

Lemma range_check_ok (q : Float32) :
  f32_lt q (FNum 0) || f32_lt (FNum 1) q = false -> quality_ok q.
Proof.
  unfold quality_ok.
  destruct q as [r | [|] |]; cbn [f32_lt orb]; intros H; try discriminate H; [| right; reflexivity].
  left. exists r. split; [reflexivity |].
  destruct (Qlt_le_dec r 0) as [_ | H0]; [discriminate H |].
  destruct (Qlt_le_dec 1 r) as [_ | H1]; [discriminate H |].
  split; assumption.
Qed.

(** What [parseContentType] keeps for a content type of the given mime:
    the mime, a quality it lets through, and for a non-CAR mime the default
    order and duplicates. *)
Definition ct_inv (mime : string) (ct : ContentType) : Prop :=
  MimeType ct = mime /\ quality_ok (Quality ct) /\
  (mime <> MimeTypeCar -> Order ct = ContentTypeOrderDfs /\ CTDuplicates ct = true).

Lemma parse_param_inv (PF : string -> option Float32) (mime : string) (ct ct' : ContentType)
    (part : string) :
  parse_param PF mime ct part = Some ct' -> ct_inv mime ct -> ct_inv mime ct'.
Proof.
  unfold parse_param. intros H Hinv.
  destruct (split_char "="%char part) as [| a [| v [| x y]]];
    try (injection H as <-; exact Hinv).
  cbv zeta in H.
  match type of H with
  | match ?E1 with Some _ => _ | None => _ end = _ => destruct E1 as [ct1 |] eqn:HE1
  end; [| discriminate].
  assert (Hinv1 : ct_inv mime ct1).
  { revert HE1.
    destruct (String.eqb mime MimeTypeCar) eqn:Em.
    - apply String.eqb_eq in Em. subst mime.
      destruct Hinv as (Hm & Hq & _).
      repeat match goal with
             | |- context [String.eqb ?x ?y] => destruct (String.eqb x y)
             end; intros HE1; try discriminate; injection HE1 as <-;
        unfold ct_inv; cbn [MimeType Quality];
        (split; [exact Hm | split; [exact Hq | intros Hne; contradiction]]).
    - intros HE1. injection HE1 as <-. exact Hinv. }
  destruct (String.eqb (TrimSpace a) "q").
  - destruct (PF (TrimSpace v)) as [q |]; [| discriminate].
    destruct (f32_lt q (FNum 0) || f32_lt (FNum 1) q) eqn:Hr; [discriminate |].
    injection H as <-. destruct Hinv1 as (Hm & _ & Hd).
    unfold ct_inv; cbn [MimeType Order CTDuplicates Quality]. unfold ct_inv in Hd.
    split; [exact Hm | split; [exact (range_check_ok q Hr) | exact Hd]].
  - injection H as <-. exact Hinv1.
Qed.

Lemma parse_params_inv (PF : string -> option Float32) (mime : string) (parts : list string) :
  forall ct ct', parse_params PF mime ct parts = Some ct' -> ct_inv mime ct -> ct_inv mime ct'.
Proof.
  induction parts as [| p rest IH]; intros ct ct' H Hinv; simpl in H.
  - injection H as <-. exact Hinv.
  - destruct (parse_param PF mime ct p) as [ct1 |] eqn:Hp; [| discriminate].
    apply (IH ct1 ct' H). exact (parse_param_inv PF mime ct ct1 p Hp Hinv).
Qed.

Lemma parseContentType_inv (PF : string -> option Float32) (h : string) (strict : bool)
    (ct : ContentType) :
  parseContentType PF h strict = Some ct ->
  (MimeType ct = MimeTypeCar \/ MimeType ct = MimeTypeRaw \/
   (strict = false /\ (MimeType ct = "*/*" \/ MimeType ct = "application/*"))) /\
  quality_ok (Quality ct) /\
  (MimeType ct <> MimeTypeCar -> Order ct = ContentTypeOrderDfs /\ CTDuplicates ct = true).
Proof.
  unfold parseContentType. intros H.
  destruct (split_char ";"%char h) as [| t0 rest]; [discriminate |].
  cbv zeta in H.
  destruct (_ || _ || _)%bool eqn:Hc; [| discriminate].
  apply parse_params_inv in H.
  2: { unfold ct_inv, WithMimeType, DefaultContentType; cbn [MimeType Order CTDuplicates Quality].
       split; [reflexivity | split; [| split; reflexivity]].
       left. exists 1%Q. split; [reflexivity | split; discriminate]. }
  destruct H as (Hm & Hq & Hd). rewrite Hm.
  split; [| split; [exact Hq | exact Hd]].
  rewrite !orb_true_iff, andb_true_iff, negb_true_iff, orb_true_iff in Hc.
  destruct Hc as [[Hc | Hc] | [Hs [Hc | Hc]]]; apply String.eqb_eq in Hc;
    [left | right; left | right; right; split; [| left] | right; right; split; [| right]];
    assumption.
Qed.

(** X5: [ParseAccept] returns a permutation of the header's entries that
    parse as content types: its sort, Go's [sort.SliceStable], only swaps
    them. *)
Theorem ParseAccept_permutation :
  forall (PF : string -> option Float32) (h : string),
  Permutation (ParseAccept PF h)
    (flat_map (fun t => match parseContentType PF t false with Some c => [c] | None => [] end)
       (split_char ","%char h)).
Proof.
  intros PF h. unfold ParseAccept. apply GoSortFacts.SliceStable_perm.
Qed.

(** X6: a content type accepted by [parseContentType] has the CAR or raw
    mime (or, in the lenient form used for Accept, a [*/*] or
    [application/*] wildcard), a quality in [[0, 1]] or NaN (the range check
    [quality < 0 || quality > 1] is false for NaN), and, unless it is CAR,
    the default order [dfs] and duplicates [y]: the CAR parameters are only
    read for the CAR mime. Every entry of [ParseAccept] is of this form. *)
Theorem parseContentType_valid :
  forall (PF : string -> option Float32),
  (forall (h : string) (strict : bool) (ct : ContentType),
     parseContentType PF h strict = Some ct ->
     (MimeType ct = MimeTypeCar \/ MimeType ct = MimeTypeRaw \/
      (strict = false /\ (MimeType ct = "*/*" \/ MimeType ct = "application/*"))) /\
     ((exists r, Quality ct = FNum r /\ (0 <= r <= 1)%Q) \/ Quality ct = FNaN) /\
     (MimeType ct <> MimeTypeCar -> Order ct = ContentTypeOrderDfs /\ CTDuplicates ct = true)) /\
  (forall (h : string) (ct : ContentType),
     In ct (ParseAccept PF h) ->
     (MimeType ct = MimeTypeCar \/ MimeType ct = MimeTypeRaw \/
      MimeType ct = "*/*" \/ MimeType ct = "application/*") /\
     ((exists r, Quality ct = FNum r /\ (0 <= r <= 1)%Q) \/ Quality ct = FNaN) /\
     (MimeType ct <> MimeTypeCar -> Order ct = ContentTypeOrderDfs /\ CTDuplicates ct = true)).
Proof.
  intros PF. split; [apply parseContentType_inv |].
  intros h ct Hin.
  unfold ParseAccept in Hin.
  eapply Permutation_in in Hin; [| apply GoSortFacts.SliceStable_perm].
  apply in_flat_map in Hin. destruct Hin as [t [_ Ht]].
  destruct (parseContentType PF t false) as [c |] eqn:Hp; [| destruct Ht].
  destruct Ht as [<- | []].
  destruct (parseContentType_inv PF t false c Hp) as (Hm & Hq & Hd).
  split; [| split; assumption].
  destruct Hm as [H | [H | [_ [H | H]]]]; tauto.
Qed.

End ContentTypeFacts.

Module PathFacts.
Import HttpParse EtagFacts QueryFacts.

(** A field in progress absorbs a run of characters other than ['/']. *)
Lemma fields_slash_word (c s cur : string) :
  no_char "/" c -> fields_slash (c ++ s) cur = fields_slash s (cur ++ c).
Proof.
  revert cur. induction c as [| a c IH]; intros cur Hc.
  - cbn [String.append]. rewrite str_append_nil_r. reflexivity.
  - unfold no_char in Hc. cbn [list_ascii_of_string] in Hc.
    inversion Hc as [| ? ? Ha Hrest]; subst.
    cbn [String.append fields_slash]. rewrite Ha.
    rewrite (IH (cur ++ String a EmptyString) Hrest), str_append_assoc. reflexivity.
Qed.

Lemma no_char_app (sep : ascii) (a b : string) :
  no_char sep a -> no_char sep b -> no_char sep (a ++ b).
Proof.
  unfold no_char. rewrite list_ascii_of_string_app. intros Ha Hb. apply Forall_app. split; assumption.
Qed.

(** The fields are non-empty and free of ['/']. *)
Lemma fields_slash_props (s : string) :
  forall cur, no_char "/" cur ->
  Forall (fun x => x <> "" /\ no_char "/" x) (fields_slash s cur).
Proof.
  induction s as [| a s IH]; intros cur Hcur; cbn [fields_slash].
  - destruct (String.eqb cur "") eqn:E; constructor; [| constructor].
    split; [apply String.eqb_neq; exact E | exact Hcur].
  - destruct (Ascii.eqb a "/") eqn:Ea.
    + apply Forall_app. split; [| apply IH; constructor].
      destruct (String.eqb cur "") eqn:E; constructor; [| constructor].
      split; [apply String.eqb_neq; exact E | exact Hcur].
    + apply IH. apply no_char_app; [exact Hcur |]. constructor; [exact Ea | constructor].
Qed.

Lemma fields_slash_join (l : list string) :
  Forall (fun x => x <> "" /\ no_char "/" x) l -> fields_slash (join_slash l) "" = l.
Proof.
  induction l as [| x l IH]; intros H; [reflexivity |].
  inversion H as [| ? ? [Hx Hnc] Hl]; subst.
  destruct l as [| y l'].
  - change (join_slash [x]) with x.
    rewrite <- (str_append_nil_r x) at 1. rewrite (fields_slash_word x "" "" Hnc).
    cbn [String.append fields_slash]. apply String.eqb_neq in Hx. rewrite Hx. reflexivity.
  - change (join_slash (x :: y :: l')) with (x ++ "/" ++ join_slash (y :: l')).
    rewrite (fields_slash_word x _ "" Hnc). cbn [String.append fields_slash Ascii.eqb Bool.eqb].
    apply String.eqb_neq in Hx. rewrite Hx, (IH Hl). reflexivity.
Qed.

Lemma segment_strings (s : string) : map PathSegment_String (ParsePath s) = fields_slash s "".
Proof.
  unfold ParsePath. rewrite map_map. apply map_id.
Qed.

Lemma fields_slash_slashed (l : list string) :
  Forall (fun x => x <> "" /\ no_char "/" x) l ->
  forall cur, no_char "/" cur ->
  fields_slash (String.concat "" (map (fun x => "/" ++ x) l)) cur
  = ((if String.eqb cur "" then [] else [cur]) ++ l)%list.
Proof.
  induction l as [| x l IH]; intros H cur Hcur.
  - cbn. rewrite app_nil_r. reflexivity.
  - inversion H as [| ? ? [Hx Hnc] Hl]; subst.
    rewrite map_cons, concat_empty_cons, str_append_assoc.
    cbn [String.append fields_slash Ascii.eqb Bool.eqb].
    rewrite (fields_slash_word x _ "" Hnc). cbn [String.append].
    pose proof (IH Hl x Hnc) as IH'. cbn [String.append] in IH'. rewrite IH'. apply String.eqb_neq in Hx. rewrite Hx. reflexivity.
Qed.

Lemma url_PathEscape_safe (s : string) :
  Forall (fun c => Ascii.eqb c "/" = false /\ Ascii.eqb c "?" = false /\ Ascii.eqb c "#" = false)
    (list_ascii_of_string (url_PathEscape s)).
Proof.
  unfold url_PathEscape. rewrite list_ascii_of_string_of_list_ascii.
  induction (list_ascii_of_string s) as [| a l IH]; [constructor |].
  cbn [flat_map]. apply Forall_app. split; [| exact IH].
  destruct a as [b0 b1 b2 b3 b4 b5 b6 b7].
  destruct b0, b1, b2, b3, b4, b5, b6, b7; vm_compute; repeat constructor.
Qed.

Lemma url_PathEscape_nonempty (s : string) : s <> "" -> url_PathEscape s <> "".
Proof.
  destruct s as [| a r]; [contradiction |]. intros _.
  unfold url_PathEscape. cbn [list_ascii_of_string flat_map].
  destruct (shouldEscapePathSegment _); cbn; discriminate.
Qed.

Lemma no_char_concat (sep : ascii) (l : list string) :
  Forall (no_char sep) l -> no_char sep (String.concat "" l).
Proof.
  induction l as [| x l IH]; intros H; [constructor |].
  inversion H; subst. rewrite concat_empty_cons. apply no_char_app; [assumption | apply IH; assumption].
Qed.

Lemma PathEscape_as_map (p : string) :
  PathEscape p = String.concat "" (map (fun x => "/" ++ x) (map url_PathEscape (fields_slash p ""))).
Proof.
  unfold PathEscape. destruct (String.eqb p "") eqn:E.
  - apply String.eqb_eq in E. subst p. reflexivity.
  - unfold ParsePath. rewrite !map_map. reflexivity.
Qed.

(** X7: [ParseUrlPath] reports [ErrPathNotFound] unless the slash-separated
    fields of the URL path start with [ipfs] and a second field; otherwise
    the second field is handed to [cid.Parse], a failure being [ErrBadCid],
    and the remaining fields are the returned path. In particular
    [/ipfs/<cid>/<rest>] gives the CID and [ParsePath rest]. *)
Theorem ParseUrlPath_spec :
  forall (CP : string -> option Cid),
  (forall u : string,
     (forall c rest, fields_slash u "" <> "ipfs" :: c :: rest) ->
     ParseUrlPath CP u = inr ErrPathNotFound) /\
  (forall (u c : string) (rest : list string),
     fields_slash u "" = "ipfs" :: c :: rest ->
     ParseUrlPath CP u = match CP c with
                         | Some r => inl (r, map PathSegmentOfString rest)
                         | None => inr ErrBadCid
                         end) /\
  (forall c p : string,
     c <> "" -> no_char "/" c ->
     ParseUrlPath CP ("/ipfs/" ++ c ++ "/" ++ p) = match CP c with
                                                  | Some r => inl (r, ParsePath p)
                                                  | None => inr ErrBadCid
                                                  end).
Proof.
  intros CP.
  assert (Hok : forall u c rest, fields_slash u "" = "ipfs" :: c :: rest ->
     ParseUrlPath CP u = match CP c with
                         | Some r => inl (r, map PathSegmentOfString rest)
                         | None => inr ErrBadCid
                         end).
  { intros u c rest H. unfold ParseUrlPath, ParsePath. rewrite H. reflexivity. }
  split; [| split; [exact Hok |]].
  - intros u H. unfold ParseUrlPath, ParsePath.
    destruct (fields_slash u "") as [| x [| y rest]] eqn:E; [reflexivity | |].
    + cbn [map Path_Shift]. unfold PathSegment_String, PathSegmentOfString; cbn [seg_i seg_s Z.ltb Z.compare].
      destruct (String.eqb x "ipfs"); reflexivity.
    + cbn [map Path_Shift]. unfold PathSegment_String, PathSegmentOfString; cbn [seg_i seg_s Z.ltb Z.compare].
      destruct (String.eqb x "ipfs") eqn:Ex; [| reflexivity].
      apply String.eqb_eq in Ex. subst x. exfalso. exact (H y rest eq_refl).
  - intros c p Hc Hnc. apply (Hok _ c (fields_slash p "")).
    cbn [String.append fields_slash Ascii.eqb Bool.eqb String.eqb].
    rewrite (fields_slash_word c _ "" Hnc). cbn [String.append fields_slash Ascii.eqb Bool.eqb].
    apply String.eqb_neq in Hc. rewrite Hc. reflexivity.
Qed.

(** X8: a path reparses to itself once normalised: parsing the string form
    of [ParsePath s] gives [ParsePath s] back, so the path [Request.Etag]
    hashes and the path [ParseUrlPath] returns are the canonical one. *)
Theorem ParsePath_String_roundtrip :
  forall s : string, ParsePath (Path_String (ParsePath s)) = ParsePath s.
Proof.
  intros s. unfold Path_String. rewrite segment_strings.
  unfold ParsePath at 1. rewrite fields_slash_join; [reflexivity |].
  apply fields_slash_props. constructor.
Qed.

(** X9: [PathEscape] never outputs ['?'] or ['#'], so the query that
    [Request.UrlPath] appends starts at its first ['?']; and the escaped path
    splits at ['/'] into exactly the escaped segments of the original path
    (escaping keeps the segment structure). *)
Theorem PathEscape_segments :
  forall p : string,
  no_char "?" (PathEscape p) /\ no_char "#" (PathEscape p) /\
  fields_slash (PathEscape p) "" = map url_PathEscape (fields_slash p "").
Proof.
  intros p. rewrite PathEscape_as_map.
  assert (Hsafe : forall sep, sep = "?"%char \/ sep = "#"%char ->
            Forall (no_char sep) (map (fun x => "/" ++ x) (map url_PathEscape (fields_slash p "")))).
  { intros sep Hsep. apply Forall_forall. intros y Hy.
    apply in_map_iff in Hy. destruct Hy as [z [<- Hz']].
    apply in_map_iff in Hz'. destruct Hz' as [w [<- _]].
    apply (no_char_app sep "/"); [destruct Hsep; subst; repeat constructor |].
    pose proof (url_PathEscape_safe w) as Hz. unfold no_char.
    eapply Forall_impl; [| exact Hz]. intros ch (_ & Hq & Hh). destruct Hsep; subst; assumption. }
  split; [apply no_char_concat, Hsafe; left; reflexivity |].
  split; [apply no_char_concat, Hsafe; right; reflexivity |].
  rewrite (fields_slash_slashed (map url_PathEscape (fields_slash p ""))); [reflexivity | | constructor].
  apply Forall_map. eapply Forall_impl; [| apply (fields_slash_props p "" (Forall_nil _))].
  intros x [Hx _]. split; [apply url_PathEscape_nonempty, Hx |].
  pose proof (url_PathEscape_safe x) as Hs. unfold no_char.
  eapply Forall_impl; [| exact Hs]. intros ch (H1 & _ & _). exact H1.
Qed.

(** X10: [Request.UrlPath] and [Request.Selector] depend on the path only
    through [ParsePath] (redundant, leading and trailing slashes do not
    matter), and so does [Request.Etag] between two non-empty paths. *)
Theorem request_path_normalised :
  forall (root : Cid) (p1 p2 : string) (scope : DagScope) (bytes : option ByteRange)
         (dups : bool),
  ParsePath p1 = ParsePath p2 ->
  Request_UrlPath (mkRequest root p1 scope bytes dups)
  = Request_UrlPath (mkRequest root p2 scope bytes dups) /\
  Request_Selector (mkRequest root p1 scope bytes dups)
  = Request_Selector (mkRequest root p2 scope bytes dups) /\
  (p1 <> "" -> p2 <> "" -> forall order : string,
     Request_Etag (mkRequest root p1 scope bytes dups) order
     = Request_Etag (mkRequest root p2 scope bytes dups) order).
Proof.
  intros root p1 p2 scope bytes dups H.
  split; [| split].
  - unfold Request_UrlPath. cbn [ReqPath Scope Bytes].
    rewrite !PathEscape_as_map.
    rewrite <- !segment_strings, H. reflexivity.
  - unfold Request_Selector, UnixFSPathSelectorBuilder. cbn [ReqPath Scope Bytes].
    rewrite H. reflexivity.
  - intros H1 H2 order. unfold Request_Etag, etag_writes. cbn [ReqPath Scope Bytes Root Duplicates].
    apply String.eqb_neq in H1. apply String.eqb_neq in H2. rewrite H1, H2, H. reflexivity.
Qed.

End PathFacts.

Module VerifyFacts.
Import Traversal CountFacts CaptureFacts.

(** A stream that verifies: the root load and the walk's loads all succeed,
    the walk reports no error and the stream is then at its end. *)
Lemma verify_success_decomp (cfg : Config) (bs : list StreamItem) (lsys : Store) (w : Walk)
    (res : TraversalResult) :
  VerifyBlockStream cfg bs lsys w = Some (res, None) ->
  exists d st1 rs st2 e rest,
    nextBlockReadOpener cfg (CfgRoot cfg) (mkOpener [] bs lsys zeroTracker) = (LOk d, st1) /\
    run_inner (nextBlockReadOpener cfg) (walk_loads w) st1 = Some (rs, st2) /\
    last_error rs None = None /\ walk_err w = None /\
    Next (stream st2) = (inr e, rest) /\ errors_Is e "EOF" = true /\
    res = mkResult (walk_last w) (blocksIn (tracker st2)) (bytesIn (tracker st2))
                   (blocksOut (tracker st2)) (bytesOut (tracker st2)).
Proof.
  intros H. unfold VerifyBlockStream in H.
  destruct (Traverse cfg w (mkOpener [] bs lsys zeroTracker)) as [[r st]|] eqn:HT;
    [| discriminate].
  destruct r as [lastPath | e]; [| discriminate].
  destruct (Next (stream st)) as [[blk | e] rest] eqn:HN; [discriminate |].
  destruct (errors_Is e "EOF") eqn:He; [| discriminate].
  cbn [negb] in H. injection H as <-.
  unfold Traverse, ecr_StorageReadOpener in HT.
  destruct (walk_compile_err w); [discriminate |].
  destruct (walk_setup_err w); [discriminate |]. cbn [ecr_inner Error] in HT.
  destruct (nextBlockReadOpener cfg (CfgRoot cfg) (mkOpener [] bs lsys zeroTracker))
    as [r0 st1] eqn:Hroot.
  destruct r0 as [d | e0 |]; cbn [ecr_inner Error] in HT; try discriminate.
  destruct (walk_root_err w); [discriminate |].
  rewrite ecr_loads_spec in HT.
  destruct (run_inner (nextBlockReadOpener cfg) (walk_loads w) st1) as [[rs st2]|] eqn:Hrun;
    [| discriminate].
  destruct (walk_err w) eqn:Hw; [discriminate |].
  cbn [Error ecr_inner] in HT. destruct (last_error rs None) eqn:Hle; [discriminate |].
  injection HT as <- <-.
  exists d, st1, rs, st2, e, rest. repeat split; assumption.
Qed.

(** The blocks read so far are a prefix of the original stream, counted by
    the tracker's [blocksIn] and [bytesIn]. *)
Definition stream_inv (bs0 : list StreamItem) (s : list StreamItem) (t : WriteTracker) : Prop :=
  exists pre, bs0 = (map SBlock pre ++ s)%list /\ blocksIn t = List.length pre /\
              bytesIn t = blocks_bytes pre.

Lemma blocks_bytes_snoc (pre : list Block) (b : Block) :
  blocks_bytes (pre ++ [b]) = (blocks_bytes pre + List.length (blk_data b))%nat.
Proof. induction pre as [| x pre IH]; simpl; [lia | rewrite IH; lia]. Qed.

Lemma stream_inv_consume (bs0 s : list StreamItem) (t : WriteTracker) (b : Block) :
  stream_inv bs0 (SBlock b :: s) t -> stream_inv bs0 s (recordBlockIn t (blk_data b)).
Proof.
  intros [pre [H1 [H2 H3]]]. exists (pre ++ [b])%list. simpl.
  rewrite map_app, <- app_assoc, length_app, blocks_bytes_snoc. simpl.
  repeat split; [exact H1 | lia | lia].
Qed.

Lemma readNextBlock_inl (bs : list StreamItem) (c : Cid) (d : list Z) (bs' : list StreamItem) :
  readNextBlock bs c = (inl d, bs') -> exists b, bs = SBlock b :: bs' /\ blk_data b = d.
Proof.
  unfold readNextBlock. destruct bs as [| [b | e] rest]; cbn [Next].
  - cbn. discriminate.
  - destruct (negb (same_multihash (blk_cid b) c)); [discriminate |].
    intros H. injection H as <- <-. exists b. split; reflexivity.
  - destruct (errors_Is e "EOF"); discriminate.
Qed.

Ltac inv_same H :=
  destruct H as [pre [H1 [H2 H3]]]; exists pre; cbn; repeat split; assumption.

Ltac write_same Hop Hinv :=
  apply CountFacts.write_out_ok in Hop; destruct Hop as [_ [_ [-> ->]]]; inv_same Hinv.

Lemma opener_stream_step (cfg : Config) (c : Cid) (st st' : OpenerState) (d : list Z)
    (bs0 : list StreamItem) :
  nextBlockReadOpener cfg c st = (LOk d, st') ->
  stream_inv bs0 (stream st) (tracker st) -> stream_inv bs0 (stream st') (tracker st').
Proof.
  intros Hop Hinv. unfold nextBlockReadOpener in Hop.
  destruct (memb c (seen st)).
  - destruct (ExpectDuplicatesIn cfg).
    + destruct (readNextBlock (stream st) c) as [[data | e] bs] eqn:Hr; [| discriminate].
      apply readNextBlock_inl in Hr. destruct Hr as [b [Hs Hd]].
      rewrite Hs in Hinv. apply stream_inv_consume in Hinv. rewrite Hd in Hinv.
      destruct (WriteDuplicatesOut cfg); cbn [negb] in Hop;
        [write_same Hop Hinv | injection Hop as _ <-; exact Hinv].
    + destruct (store_get (store st) c) as [data | e];
        destruct (WriteDuplicatesOut cfg); cbn [negb] in Hop; try discriminate;
        [write_same Hop Hinv | injection Hop as _ <-; exact Hinv].
  - cbn [stream] in Hop.
    destruct (readNextBlock (stream st) c) as [[data | e] bs] eqn:Hr; [| discriminate].
    apply readNextBlock_inl in Hr. destruct Hr as [b [Hs Hd]].
    rewrite Hs in Hinv. apply stream_inv_consume in Hinv. rewrite Hd in Hinv.
    write_same Hop Hinv.
Qed.

Lemma run_stream (cfg : Config) (bs0 : list StreamItem) (ls : list Cid) :
  forall st rs st' c,
  run_inner (nextBlockReadOpener cfg) ls st = Some (rs, st') ->
  last_error rs c = None ->
  stream_inv bs0 (stream st) (tracker st) -> stream_inv bs0 (stream st') (tracker st').
Proof.
  induction ls as [| l rest IH]; intros st rs st' c Hrun Hle Hinv.
  - simpl in Hrun. injection Hrun as <- <-. exact Hinv.
  - simpl in Hrun.
    destruct (nextBlockReadOpener cfg l st) as [r st1] eqn:Hop.
    destruct r as [d | e |]; [| | discriminate].
    + destruct (run_inner (nextBlockReadOpener cfg) rest st1) as [[rs1 st2]|] eqn:Hr;
        [| discriminate].
      injection Hrun as <- <-.
      unfold last_error in Hle; simpl in Hle; fold (last_error rs1 c) in Hle.
      exact (IH st1 rs1 st2 c Hr Hle (opener_stream_step cfg l st st1 d bs0 Hop Hinv)).
    + destruct (run_inner (nextBlockReadOpener cfg) rest st1) as [[rs1 st2]|];
        [| discriminate].
      injection Hrun as <- <-.
      unfold last_error in Hle; simpl in Hle; fold (last_error rs1 (Some e)) in Hle.
      exfalso; exact (last_error_some rs1 e Hle).
Qed.

(** X11: when [VerifyBlockStream] succeeds, the stream is a run of blocks
    followed by its end ([io.EOF], possibly an error item that [errors.Is]
    EOF); [BlocksIn] is the number of those blocks and [BytesIn] their total
    size: every block of the stream was read and counted once. *)
Theorem verify_reads_whole_stream :
  forall (cfg : Config) (bs : list StreamItem) (lsys : Store) (w : Walk)
         (res : TraversalResult),
  VerifyBlockStream cfg bs lsys w = Some (res, None) ->
  exists pre post,
    bs = (map SBlock pre ++ post)%list /\
    BlocksIn res = List.length pre /\ BytesIn res = blocks_bytes pre /\
    (post = [] \/ exists e rest, post = SErr e :: rest /\ errors_Is e "EOF" = true).
Proof.
  intros cfg bs lsys w res H.
  destruct (verify_success_decomp cfg bs lsys w res H)
    as (d & st1 & rs & st2 & e & rest & Hroot & Hrun & Hle & _ & HN & He & ->).
  assert (H0 : stream_inv bs (stream (mkOpener [] bs lsys zeroTracker))
                             (tracker (mkOpener [] bs lsys zeroTracker))).
  { exists []. repeat split. }
  pose proof (opener_stream_step cfg _ _ _ d bs Hroot H0) as H1.
  destruct (run_stream cfg bs (walk_loads w) st1 rs st2 None Hrun Hle H1)
    as [pre [Hbs [Hin Hby]]].
  exists pre, (stream st2). cbn [BlocksIn BytesIn].
  split; [exact Hbs | split; [exact Hin | split; [exact Hby |]]].
  destruct (stream st2) as [| [b | e'] rest'] eqn:Hs.
  - left. reflexivity.
  - discriminate.
  - right. exists e', rest'. cbn in HN. injection HN as -> _. split; [reflexivity | exact He].
Qed.

(** X12: when [VerifyBlockStream] succeeds, [BlocksIn] and [BlocksOut] are
    the number of distinct CIDs loaded (the root and the walk's links), plus
    the repeated loads when [ExpectDuplicatesIn], respectively
    [WriteDuplicatesOut], is set; [LastPath] is the walk's last path. *)
Theorem verify_exact_counts :
  forall (cfg : Config) (bs : list StreamItem) (lsys : Store) (w : Walk)
         (res : TraversalResult),
  VerifyBlockStream cfg bs lsys w = Some (res, None) ->
  BlocksIn res = (new_count [] (CfgRoot cfg :: walk_loads w)
                  + (if ExpectDuplicatesIn cfg then dup_count [] (CfgRoot cfg :: walk_loads w)
                     else 0))%nat /\
  BlocksOut res = (new_count [] (CfgRoot cfg :: walk_loads w)
                   + (if WriteDuplicatesOut cfg then dup_count [] (CfgRoot cfg :: walk_loads w)
                      else 0))%nat /\
  LastPath res = walk_last w.
Proof.
  intros cfg bs lsys w res H.
  destruct (verify_success_decomp cfg bs lsys w res H)
    as (d & st1 & rs & st2 & e & rest & Hroot & Hrun & Hle & _ & _ & _ & ->).
  apply opener_step in Hroot. cbn in Hroot. destruct Hroot as [Hs [Hi Ho]].
  destruct (run_counts cfg (walk_loads w) st1 rs st2 None Hrun Hle) as [Hin Hout].
  cbn [BlocksIn BlocksOut LastPath]. rewrite Hin, Hout, Hi, Ho, Hs.
  cbn [new_count dup_count memb existsb].
  destruct (ExpectDuplicatesIn cfg), (WriteDuplicatesOut cfg); repeat split; lia.
Qed.

(** X13: once the selector compiles and the root's prototype, decoder and
    hasher are chosen (the steps before any read), a stream that fails at
    its first read fails the whole verification, whatever the rest of the
    walk, with a zero result: an empty stream (or one starting
    with an error that [errors.Is] EOF) gives [ErrMissingBlock] combined with
    the root's not-found error, another error item gives the wrapped
    [ErrMalformedCar], and a first block whose multihash is not the root's
    gives the wrapped [ErrUnexpectedBlock]. *)
Theorem verify_first_read_failures :
  forall (cfg : Config) (lsys : Store) (w : Walk),
  walk_compile_err w = None -> walk_setup_err w = None ->
  (forall bs : list StreamItem,
     (bs = [] \/ exists e rest, bs = SErr e :: rest /\ errors_Is e "EOF" = true) ->
     VerifyBlockStream cfg bs lsys w
     = Some (zeroResult, Some (ErrCombine [ErrMissingBlock; ErrNotFound (CfgRoot cfg)]))) /\
  (forall (e : Err) (rest : list StreamItem),
     errors_Is e "EOF" = false ->
     VerifyBlockStream cfg (SErr e :: rest) lsys w
     = Some (zeroResult, Some (ErrWrap "failed to load root node"
              (ErrWrap "failed to load root CID" (ErrCombine [ErrMalformedCar; e])))) /\
     errors_Is (ErrWrap "failed to load root node"
                  (ErrWrap "failed to load root CID" (ErrCombine [ErrMalformedCar; e])))
       "malformed CAR" = true) /\
  (forall (b : Block) (rest : list StreamItem),
     same_multihash (blk_cid b) (CfgRoot cfg) = false ->
     VerifyBlockStream cfg (SBlock b :: rest) lsys w
     = Some (zeroResult, Some (ErrWrap "failed to load root node"
              (ErrWrap "failed to load root CID"
                (ErrWrap "unexpected block" ErrUnexpectedBlock)))) /\
     errors_Is (ErrWrap "failed to load root node"
                  (ErrWrap "failed to load root CID"
                    (ErrWrap "unexpected block" ErrUnexpectedBlock)))
       "unexpected block in CAR" = true).
Proof.
  intros cfg lsys w Hc Hs. split; [| split].
  - intros bs Hbs.
    destruct Hbs as [-> | [e [rest [-> He]]]].
    + unfold VerifyBlockStream, Traverse. rewrite Hc, Hs. reflexivity.
    + unfold VerifyBlockStream, Traverse, ecr_StorageReadOpener, nextBlockReadOpener,
        readNextBlock. rewrite Hc, Hs. simpl. rewrite He.
      reflexivity.
  - intros e rest He. split; [| reflexivity].
    unfold VerifyBlockStream, Traverse, ecr_StorageReadOpener, nextBlockReadOpener,
      readNextBlock. rewrite Hc, Hs. simpl. rewrite He.
    reflexivity.
  - intros b rest Hb. split; [| reflexivity].
    unfold VerifyBlockStream, Traverse, ecr_StorageReadOpener, nextBlockReadOpener,
      readNextBlock. rewrite Hc, Hs. simpl. rewrite Hb.
    reflexivity.
Qed.


Lemma traversalError_loop_matched (err original : Err) (n : string) :
  errors_Is err n = true -> traversalError_loop err original = original.
Proof.
  induction err as [n' | c | msg inner IH | es | msg]; cbn [traversalError_loop errors_Is];
    intros H; try reflexivity; try discriminate.
  apply IH. exact H.
Qed.

Lemma traversalError_loop_chain (err original : Err) (c : Cid) :
  unwrap_chain err (ErrNotFound c) ->
  traversalError_loop err original = ErrCombine [ErrMissingBlock; ErrNotFound c].
Proof.
  intros H. remember (ErrNotFound c) as t eqn:Ht.
  induction H as [e | msg inner e' _ IH]; [subst; reflexivity |].
  cbn [traversalError_loop]. exact (IH Ht).
Qed.

Lemma traversalError_loop_nochain (err original : Err) :
  (forall c, ~ unwrap_chain err (ErrNotFound c)) -> traversalError_loop err original = original.
Proof.
  induction err as [n | c | msg inner IH | es | msg]; cbn [traversalError_loop]; intros H;
    try reflexivity.
  - exfalso. exact (H c (chain_here _)).
  - apply IH. intros c Hc. exact (H c (chain_next msg inner _ Hc)).
Qed.

(** X14: when the [errors.Unwrap] chain of an error reaches a not-found
    error [ErrNotFound c], [traversalError] returns exactly that error
    combined with [ErrMissingBlock] (which then matches
    [errors.Is(ErrMissingBlock)]); when the chain reaches none, it returns
    its argument unchanged; and an error that already matches some sentinel
    under [errors.Is] is returned unchanged, so no sentinel match is lost. *)
Theorem traversalError_spec :
  forall e : Err,
  (forall c : Cid, unwrap_chain e (ErrNotFound c) ->
     traversalError e = ErrCombine [ErrMissingBlock; ErrNotFound c] /\
     errors_Is (traversalError e) "missing block in CAR" = true) /\
  ((forall c : Cid, ~ unwrap_chain e (ErrNotFound c)) -> traversalError e = e) /\
  (forall n : string, errors_Is e n = true -> traversalError e = e).
Proof.
  intros e. unfold traversalError. split; [| split].
  - intros c H. rewrite (traversalError_loop_chain e e c H). split; reflexivity.
  - exact (traversalError_loop_nochain e e).
  - intros n H. exact (traversalError_loop_matched e e n H).
Qed.

(** X18: the read-opener returns the storage's write error as it is: when
    the first block of the stream is the root and the caller's storage fails
    its first write with [e], the verification fails with a zero result and
    the root-load wrapping of [e] (passed through [traversalError]); when [e]
    matches a sentinel under [errors.Is], that is exactly the wrapped [e],
    which still matches the sentinel. *)
Theorem verify_root_write_error :
  forall (cfg : Config) (lsys : Store) (w : Walk) (b : Block) (rest : list StreamItem)
         (e : Err) (more : list (option Err)),
  walk_compile_err w = None -> walk_setup_err w = None ->
  same_multihash (blk_cid b) (CfgRoot cfg) = true ->
  store_writes lsys = Some e :: more ->
  let E := ErrWrap "failed to load root node" (ErrWrap "failed to load root CID" e) in
  (VerifyBlockStream cfg (SBlock b :: rest) lsys w = Some (zeroResult, Some (traversalError E)) /\
   (forall n : string, errors_Is e n = true -> traversalError E = E /\ errors_Is E n = true)).
Proof.
  intros cfg lsys w b rest e more Hc Hs Hb Hw E. split.
  - unfold VerifyBlockStream, Traverse, ecr_StorageReadOpener, nextBlockReadOpener,
      readNextBlock, write_out, store_write.
    destruct lsys as [bl ws]. cbn [store_writes] in Hw. subst ws.
    rewrite Hc, Hs. simpl. rewrite Hb. reflexivity.
  - intros n Hn. split; [| exact Hn].
    exact (traversalError_loop_matched E E n Hn).
Qed.

End VerifyFacts.

Module ByteRangeFacts.
Import RangeFacts.

Lemma digit_val_nonneg (c : ascii) (d : Z) : digit_val c = Some d -> 0 <= d.
Proof.
  unfold digit_val. destruct (_ && _)%bool eqn:E; [| discriminate].
  intros H. injection H as <-. apply andb_true_iff in E. destruct E as [E _].
  apply Z.leb_le in E. lia.
Qed.

Lemma parse_digits_nonneg (l : list ascii) :
  forall acc z, 0 <= acc -> parse_digits l acc = Some z -> 0 <= z.
Proof.
  induction l as [| c rest IH]; intros acc z Hacc H; cbn [parse_digits] in H.
  - injection H as <-. exact Hacc.
  - destruct (digit_val c) as [d |] eqn:Hd; [| discriminate].
    apply digit_val_nonneg in Hd. apply (IH (acc * 10 + d)); [lia | exact H].
Qed.

Lemma ParseUint_nonneg (l : list ascii) (un : Z) : ParseUint l = Some un -> 0 <= un.
Proof.
  unfold ParseUint. destruct l as [| c rest]; [discriminate |].
  destruct (parse_digits (c :: rest) 0) as [z |] eqn:Hp; [| discriminate].
  cbv beta iota. destruct (z >? two64 - 1); [discriminate |].
  intros H. injection H as <-. exact (parse_digits_nonneg _ 0 z (Z.le_refl 0) Hp).
Qed.

(** [strconv.ParseInt(s, 10, 64)] only returns values in the [int64] range. *)
Lemma ParseInt_in_int64 (s : string) (z : Z) : ParseInt s = Some z -> in_int64 z.
Proof.
  intros H. unfold ParseInt in H. destruct (list_ascii_of_string s) as [| c rest]; [discriminate |].
  match type of H with context [let '(_, _) := ?p in _] => destruct p as [neg ds] end.
  destruct (ParseUint ds) as [un |] eqn:Hu; [| discriminate].
  cbv beta iota in H. apply ParseUint_nonneg in Hu.
  unfold in_int64, MinInt64, MaxInt64.
  destruct neg; cbn [negb andb] in H.
  - destruct (un >? 2 ^ 63) eqn:E; [discriminate |]. injection H as <-.
    rewrite Z.gtb_ltb in E. apply Z.ltb_ge in E. lia.
  - destruct (un >=? 2 ^ 63) eqn:E; [discriminate |]. injection H as <-.
    rewrite Z.geb_leb in E. apply Z.leb_gt in E. lia.
Qed.

Lemma split_char_nonempty (sep : ascii) (s : string) : split_char sep s <> [].
Proof.
  destruct s as [| c rest]; cbn [split_char]; [discriminate |].
  destruct (Ascii.eqb c sep); [discriminate |].
  destruct (split_char sep rest); discriminate.
Qed.

(** X16: [ParseByteRange] only produces bounds in the [int64] range; it
    accepts a negative start (the decimal form of any negative [int64]
    followed by [:*] gives that start with no end); and it rejects a
    non-empty string without [':'] or with more than one [':'] with the
    [invalid byte range] error. *)
Theorem ParseByteRange_bounds_and_rejects :
  (forall (s : string) (br : ByteRange),
     ParseByteRange s = ParsedRange br ->
     in_int64 (From br) /\ match To br with Some t => in_int64 t | None => True end) /\
  (forall from : Z, in_int64 from -> from < 0 ->
     ParseByteRange (FormatInt from 10 ++ ":*") = ParsedRange (mkByteRange from None)) /\
  (forall s : string,
     s <> "" -> no_char ":" s -> ParseByteRange s = ParseError "invalid byte range") /\
  (forall a b c : string,
     no_char ":" a -> no_char ":" b ->
     ParseByteRange (a ++ ":" ++ b ++ ":" ++ c) = ParseError "invalid byte range").
Proof.
  split; [| split; [| split]].
  - intros s br. unfold ParseByteRange.
    destruct (String.eqb s "").
    + intros H. injection H as <-. cbn [From To]. unfold in_int64, MinInt64, MaxInt64.
      split; [lia | exact I].
    + destruct (split_char ":" s) as [| p0 [| p1 [| x y]]]; try discriminate.
      destruct (ParseInt p0) as [from |] eqn:H0; [| discriminate].
      apply ParseInt_in_int64 in H0.
      destruct (String.eqb p1 "*").
      * intros H. injection H as <-. split; [exact H0 | exact I].
      * destruct (ParseInt p1) as [to |] eqn:H1; [| discriminate].
        apply ParseInt_in_int64 in H1.
        intros H. injection H as <-. split; assumption.
  - intros from Hf _. unfold ParseByteRange.
    replace (String.eqb (FormatInt from 10 ++ ":*") "") with false
      by (destruct (FormatInt from 10); reflexivity).
    change ":*" with (String ":" "*").
    rewrite (split_char_app ":" _ _ (FormatInt_no_colon from Hf)).
    cbn [split_char Ascii.eqb]. rewrite (ParseInt_FormatInt from Hf). reflexivity.
  - intros s Hs Hnc. unfold ParseByteRange.
    apply String.eqb_neq in Hs. rewrite Hs, (split_char_none ":" s Hnc). reflexivity.
  - intros a b c Ha Hb. unfold ParseByteRange.
    replace (String.eqb (a ++ ":" ++ b ++ ":" ++ c) "") with false by (destruct a; reflexivity).
    change (":" ++ b ++ ":" ++ c) with (String ":" (b ++ String ":" c)).
    rewrite (split_char_app ":" a _ Ha), (split_char_app ":" b c Hb).
    destruct (split_char ":" c) as [| x l] eqn:Hc; [exfalso; exact (split_char_nonempty _ _ Hc) |].
    reflexivity.
Qed.

(** X17: requests that differ only in a way the code treats as a default
    produce the same Etag, URL path and selector: an explicit [0:*] byte
    range and no byte range; the order [""] and the order [dfs] in
    [Request.Etag]; and, outside the [entity] scope, any two byte ranges for
    the selector. *)
Theorem request_default_equivalences :
  (forall (root : Cid) (path : string) (scope : DagScope) (dups : bool),
     (forall order, Request_Etag (mkRequest root path scope (Some (mkByteRange 0 None)) dups) order
                    = Request_Etag (mkRequest root path scope None dups) order) /\
     Request_UrlPath (mkRequest root path scope (Some (mkByteRange 0 None)) dups)
     = Request_UrlPath (mkRequest root path scope None dups) /\
     Request_Selector (mkRequest root path scope (Some (mkByteRange 0 None)) dups)
     = Request_Selector (mkRequest root path scope None dups)) /\
  (forall r : Request, Request_Etag r "" = Request_Etag r "dfs") /\
  (forall (root : Cid) (path : string) (scope : DagScope) (b1 b2 : option ByteRange)
          (dups : bool),
     String.eqb scope DagScopeEntity = false ->
     Request_Selector (mkRequest root path scope b1 dups)
     = Request_Selector (mkRequest root path scope b2 dups)).
Proof.
  split; [| split].
  - intros root path scope dups. split; [| split]; [intros order; reflexivity | reflexivity |].
    unfold Request_Selector. cbn [Scope Bytes ReqPath].
    destruct (String.eqb scope DagScopeEntity); reflexivity.
  - intros r. reflexivity.
  - intros root path scope b1 b2 dups Hs.
    unfold Request_Selector. cbn [Scope Bytes ReqPath]. rewrite Hs. reflexivity.
Qed.

End ByteRangeFacts.

Module ExtraWitnesses.
Import Traversal.

(** X2 at a concrete query: [entity-bytes=100:200]. *)
Lemma http_ParseByteRange_spec_witness :
  IsDefault (Some (mkByteRange 100 (Some 200))) = false /\ in_int64 100 /\ in_int64 200 /\
  HttpParse.Values_Has [("entity-bytes", "100:200")] "entity-bytes" = true /\
  ByteRange_String (Some (mkByteRange 100 (Some 200)))
  = Some (HttpParse.Values_Get [("entity-bytes", "100:200")] "entity-bytes") /\
  HttpParse.ParseByteRange [("entity-bytes", "100:200")] = inl (Some (mkByteRange 100 (Some 200))).
Proof.
  assert (H1 : IsDefault (Some (mkByteRange 100 (Some 200))) = false) by reflexivity.
  assert (H2 : in_int64 100) by (apply Witnesses.in_int64_small; lia).
  assert (H3 : in_int64 200) by (apply Witnesses.in_int64_small; lia).
  assert (H4 : HttpParse.Values_Has [("entity-bytes", "100:200")] "entity-bytes" = true)
    by reflexivity.
  assert (H5 : ByteRange_String (Some (mkByteRange 100 (Some 200)))
               = Some (HttpParse.Values_Get [("entity-bytes", "100:200")] "entity-bytes"))
    by (vm_compute; reflexivity).
  exact (conj H1 (conj H2 (conj H3 (conj H4 (conj H5
    (proj2 (proj2 (QueryFacts.http_ParseByteRange_spec [("entity-bytes", "100:200")]))
       (mkByteRange 100 (Some 200)) H1 H2 H3 H4 H5)))))).
Defined.

(** X4 at a concrete content type: CAR, order [unk], no duplicates and a
    NaN quality. *)
Lemma ContentType_String_roundtrip_witness :
  let ct := Http.mkContentType Http.MimeTypeCar "unk" false Http.FNaN in
  (Http.MimeType ct = Http.MimeTypeCar /\
   (Http.Order ct = Http.ContentTypeOrderDfs \/ Http.Order ct = Http.ContentTypeOrderUnk) /\
   (Http.f32_lt (Http.Quality ct) (Http.FNum 1) && Http.f32_le (Http.FNum 0) (Http.Quality ct))
   = false /\
   HttpParse.ParseContentType Http.ParseDecimal (HttpParse.ContentType_String (fun _ => "") ct)
   = Some (Http.mkContentType Http.MimeTypeCar "unk" false (Http.FNum 1))).
Proof.
  intros ct.
  assert (H1 : Http.MimeType ct = Http.MimeTypeCar) by reflexivity.
  assert (H2 : Http.Order ct = Http.ContentTypeOrderDfs \/
               Http.Order ct = Http.ContentTypeOrderUnk) by (right; reflexivity).
  assert (H3 : Http.f32_lt (Http.Quality ct) (Http.FNum 1)
               && Http.f32_le (Http.FNum 0) (Http.Quality ct) = false) by reflexivity.
  split; [exact H1 |]. split; [exact H2 |]. split; [exact H3 |].
  exact (proj1 (ContentTypeFacts.ContentType_String_roundtrip (fun _ => "") Http.ParseDecimal)
           ct H1 H2 H3).
Defined.

(** X6 at a concrete header: the raw mime ignores a [dups=n]. *)
Lemma parseContentType_valid_witness :
  exists ct,
  Http.parseContentType Http.ParseDecimal "application/vnd.ipld.raw;dups=n;q=0.5" true = Some ct /\
  (Http.MimeType ct <> Http.MimeTypeCar ->
   Http.Order ct = Http.ContentTypeOrderDfs /\ Http.CTDuplicates ct = true).
Proof.
  eexists. split; [vm_compute; reflexivity |].
  apply (proj1 (ContentTypeFacts.parseContentType_valid Http.ParseDecimal)
           "application/vnd.ipld.raw;dups=n;q=0.5" true).
  vm_compute. reflexivity.
Defined.

(** X7 at concrete URL paths, with a CID parser that knows one CID. *)
Lemma ParseUrlPath_spec_witness :
  let CP := fun s => if String.eqb s "bafy" then Some testCidV0 else None in
  (forall c rest, fields_slash "/ipns/bafy" "" <> "ipfs" :: c :: rest) /\
  HttpParse.ParseUrlPath CP "/ipns/bafy" = inr HttpParse.ErrPathNotFound /\
  "bafy" <> "" /\ no_char "/" "bafy" /\
  HttpParse.ParseUrlPath CP ("/ipfs/" ++ "bafy" ++ "/" ++ "a/b") = inl (testCidV0, ParsePath "a/b").
Proof.
  intros CP.
  assert (H1 : forall c rest, fields_slash "/ipns/bafy" "" <> "ipfs" :: c :: rest)
    by (intros c rest H; vm_compute in H; discriminate H).
  assert (H2 : "bafy" <> "") by discriminate.
  assert (H3 : no_char "/" "bafy") by (unfold no_char; vm_compute; repeat constructor).
  split; [exact H1 |]. split; [exact (proj1 (PathFacts.ParseUrlPath_spec CP) _ H1) |].
  split; [exact H2 |]. split; [exact H3 |].
  exact (proj2 (proj2 (PathFacts.ParseUrlPath_spec CP)) "bafy" "a/b" H2 H3).
Defined.

(** X10 at concrete paths: [a//b/] and [/a/b] are the same path. *)
Lemma request_path_normalised_witness :
  ParsePath "a//b/" = ParsePath "/a/b" /\
  Request_UrlPath (mkRequest testCidV0 "a//b/" DagScopeAll None true)
  = Request_UrlPath (mkRequest testCidV0 "/a/b" DagScopeAll None true) /\
  Request_Etag (mkRequest testCidV0 "a//b/" DagScopeAll None true) "unk"
  = Request_Etag (mkRequest testCidV0 "/a/b" DagScopeAll None true) "unk".
Proof.
  assert (H : ParsePath "a//b/" = ParsePath "/a/b") by reflexivity.
  destruct (PathFacts.request_path_normalised testCidV0 "a//b/" "/a/b" DagScopeAll None true H)
    as [Hu [_ He]].
  split; [exact H |]. split; [exact Hu |].
  apply He; discriminate.
Defined.

(** X11 at a concrete input: the root and one link, the link loaded twice
    but read once. *)
Lemma verify_reads_whole_stream_witness :
  exists res,
  VerifyBlockStream (mkConfig testCidV0 false false false true)
    [SBlock (mkBlock testCidV0 [1]); SBlock (mkBlock (mkCid 1 85 [18; 2; 7; 7]) [2; 3])] emptyStore
    (mkWalk None None None [mkCid 1 85 [18; 2; 7; 7]; mkCid 1 85 [18; 2; 7; 7]] None []) = Some (res, None) /\
  exists pre post,
    [SBlock (mkBlock testCidV0 [1]); SBlock (mkBlock (mkCid 1 85 [18; 2; 7; 7]) [2; 3])]
    = (map SBlock pre ++ post)%list /\
    BlocksIn res = List.length pre /\ BytesIn res = blocks_bytes pre /\
    (post = [] \/ exists e rest, post = SErr e :: rest /\ errors_Is e "EOF" = true).
Proof.
  eexists. split; [vm_compute; reflexivity |].
  apply (VerifyFacts.verify_reads_whole_stream (mkConfig testCidV0 false false false true)
           [SBlock (mkBlock testCidV0 [1]); SBlock (mkBlock (mkCid 1 85 [18; 2; 7; 7]) [2; 3])]
           emptyStore (mkWalk None None None [mkCid 1 85 [18; 2; 7; 7]; mkCid 1 85 [18; 2; 7; 7]] None [])).
  vm_compute. reflexivity.
Defined.

(** X12 at the same input: two blocks in, three out. *)
Lemma verify_exact_counts_witness :
  exists res,
  VerifyBlockStream (mkConfig testCidV0 false false false true)
    [SBlock (mkBlock testCidV0 [1]); SBlock (mkBlock (mkCid 1 85 [18; 2; 7; 7]) [2; 3])] emptyStore
    (mkWalk None None None [mkCid 1 85 [18; 2; 7; 7]; mkCid 1 85 [18; 2; 7; 7]] None []) = Some (res, None) /\
  BlocksIn res = 2%nat /\ BlocksOut res = 3%nat.
Proof.
  eexists. split; [vm_compute; reflexivity |].
  destruct (VerifyFacts.verify_exact_counts (mkConfig testCidV0 false false false true)
           [SBlock (mkBlock testCidV0 [1]); SBlock (mkBlock (mkCid 1 85 [18; 2; 7; 7]) [2; 3])]
           emptyStore (mkWalk None None None [mkCid 1 85 [18; 2; 7; 7]; mkCid 1 85 [18; 2; 7; 7]] None []) _
           ltac:(vm_compute; reflexivity)) as [Hi [Ho _]].
  rewrite Hi, Ho. split; vm_compute; reflexivity.
Defined.

(** X13 at concrete streams. *)
Lemma verify_first_read_failures_witness :
  let cfg := mkConfig testCidV0 false false false false in
  let w := mkWalk None None None [mkCid 1 85 [18; 2; 7; 7]] None [] in
  walk_compile_err w = None /\ walk_setup_err w = None /\
  VerifyBlockStream cfg [] emptyStore w
  = Some (zeroResult, Some (ErrCombine [ErrMissingBlock; ErrNotFound testCidV0])) /\
  errors_Is (ErrOther "truncated") "EOF" = false /\
  VerifyBlockStream cfg [SErr (ErrOther "truncated")] emptyStore w
  = Some (zeroResult, Some (ErrWrap "failed to load root node"
           (ErrWrap "failed to load root CID" (ErrCombine [ErrMalformedCar; ErrOther "truncated"])))) /\
  same_multihash (mkCid 1 85 [18; 2; 7; 7]) testCidV0 = false /\
  VerifyBlockStream cfg [SBlock (mkBlock (mkCid 1 85 [18; 2; 7; 7]) [1])] emptyStore w
  = Some (zeroResult, Some (ErrWrap "failed to load root node"
           (ErrWrap "failed to load root CID" (ErrWrap "unexpected block" ErrUnexpectedBlock)))).
Proof.
  intros cfg w.
  assert (H1 : walk_compile_err w = None) by reflexivity.
  assert (H2 : walk_setup_err w = None) by reflexivity.
  destruct (VerifyFacts.verify_first_read_failures cfg emptyStore w H1 H2) as [Ha [Hb Hc]].
  split; [exact H1 |]. split; [exact H2 |].
  assert (He : errors_Is (ErrOther "truncated") "EOF" = false) by reflexivity.
  assert (Hm : same_multihash (mkCid 1 85 [18; 2; 7; 7]) testCidV0 = false)
    by (vm_compute; reflexivity).
  split; [exact (Ha [] (or_introl eq_refl)) |].
  split; [exact He |]. split; [exact (proj1 (Hb _ [] He)) |].
  split; [exact Hm |]. exact (proj1 (Hc (mkBlock (mkCid 1 85 [18; 2; 7; 7]) [1]) [] Hm)).
Defined.

(** X14 at a concrete error: a not-found error under one [fmt.Errorf]. *)
Lemma traversalError_spec_witness :
  unwrap_chain (ErrWrap "load" (ErrNotFound testCidV0)) (ErrNotFound testCidV0) /\
  traversalError (ErrWrap "load" (ErrNotFound testCidV0))
  = ErrCombine [ErrMissingBlock; ErrNotFound testCidV0].
Proof.
  assert (H : unwrap_chain (ErrWrap "load" (ErrNotFound testCidV0)) (ErrNotFound testCidV0))
    by (apply chain_next, chain_here).
  exact (conj H (proj1 (proj1 (VerifyFacts.traversalError_spec _) testCidV0 H))).
Defined.

(** X16 at concrete strings: a negative start is an [int64] and parses from
    its decimal form, and strings
    with no or two colons are rejected. *)
Lemma ParseByteRange_bounds_and_rejects_witness :
  ParseByteRange "-5:*" = ParsedRange (mkByteRange (-5) None) /\ in_int64 (-5) /\
  ParseByteRange (FormatInt (-5) 10 ++ ":*") = ParsedRange (mkByteRange (-5) None) /\
  ParseByteRange "100" = ParseError "invalid byte range" /\
  ParseByteRange ("1" ++ ":" ++ "2" ++ ":" ++ "3") = ParseError "invalid byte range".
Proof.
  assert (H : ParseByteRange "-5:*" = ParsedRange (mkByteRange (-5) None))
    by (vm_compute; reflexivity).
  split; [exact H |]. split.
  - exact (proj1 (proj1 ByteRangeFacts.ParseByteRange_bounds_and_rejects _ _ H)).
  - split; [| split].
    + apply (proj1 (proj2 ByteRangeFacts.ParseByteRange_bounds_and_rejects));
        unfold in_int64, MinInt64, MaxInt64; lia.
    + apply (proj1 (proj2 (proj2 ByteRangeFacts.ParseByteRange_bounds_and_rejects))).
      * discriminate.
      * unfold no_char. vm_compute. repeat constructor.
    + apply (proj2 (proj2 (proj2 ByteRangeFacts.ParseByteRange_bounds_and_rejects)));
        unfold no_char; vm_compute; repeat constructor.
Defined.

(** X17 at a concrete request: the [block] scope ignores the byte range. *)
Lemma request_default_equivalences_witness :
  String.eqb DagScopeBlock DagScopeEntity = false /\
  Request_Selector (mkRequest testCidV0 "a" DagScopeBlock (Some (mkByteRange 5 (Some 9))) false)
  = Request_Selector (mkRequest testCidV0 "a" DagScopeBlock None false).
Proof.
  assert (H : String.eqb DagScopeBlock DagScopeEntity = false) by reflexivity.
  exact (conj H (proj2 (proj2 ByteRangeFacts.request_default_equivalences)
                   testCidV0 "a" DagScopeBlock _ None false H)).
Defined.

(** X18 at a concrete store whose first write fails. *)
Lemma verify_root_write_error_witness :
  let cfg := mkConfig testCidV0 false false false false in
  let lsys := mkStore [] [Some (ErrSentinel "disk full")] in
  let w := mkWalk None None None [] None [] in
  (walk_compile_err w = None /\ walk_setup_err w = None /\
   same_multihash (blk_cid (mkBlock testCidV0 [1])) (CfgRoot cfg) = true /\
   store_writes lsys = Some (ErrSentinel "disk full") :: [] /\
   VerifyBlockStream cfg [SBlock (mkBlock testCidV0 [1])] lsys w
   = Some (zeroResult, Some (traversalError (ErrWrap "failed to load root node"
             (ErrWrap "failed to load root CID" (ErrSentinel "disk full")))))).
Proof.
  intros cfg lsys w.
  assert (H1 : walk_compile_err w = None) by reflexivity.
  assert (H2 : walk_setup_err w = None) by reflexivity.
  assert (H3 : same_multihash (blk_cid (mkBlock testCidV0 [1])) (CfgRoot cfg) = true)
    by (vm_compute; reflexivity).
  assert (H4 : store_writes lsys = Some (ErrSentinel "disk full") :: []) by reflexivity.
  refine (conj H1 (conj H2 (conj H3 (conj H4 _)))).
  exact (proj1 (VerifyFacts.verify_root_write_error cfg lsys w (mkBlock testCidV0 [1]) []
                  (ErrSentinel "disk full") [] H1 H2 H3 H4)).
Defined.

End ExtraWitnesses.
